(** * Letterboxd movie fetcher: a shallow embedding of [src/letterboxd.js]

    The program scrapes film records out of an RSS feed and out of rendered
    HTML pages with regular expressions.  The development has these parts:

    - JavaScript strings (sequences of UTF-16 code units) and the
      backtracking regular-expression matcher of ECMA-262, for the syntax
      the source uses;
    - the regular expressions and the functions of [letterboxd.js],
      transcribed one by one, with exceptions and loops made explicit;
    - the transport ([fetch]) as a scripted collaborator that records every
      request it receives;
    - the definitions the statements need: what a pattern matches, the
      parts of the feed loop body, the decoder as the specification words
      it, sample inputs;
    - the properties: the matcher against its declarative reading, each
      pattern of the source, the loops, and the statements about the
      specification. *)

From Stdlib Require Import Ascii String DecimalString DecimalNat DecimalFacts.
From stdpp Require Import base option list numbers.

Local Open Scope N_scope.
Local Open Scope nat_scope.

(** ** Strings *)

(** A JavaScript string is a sequence of 16-bit code units.  The regular
    expressions of the source carry no [u] flag, so they see code units. *)
Abbreviation str := (list N).

(** ASCII literals of the source text. *)
Fixpoint lit (s : string) : str :=
  match s with
  | EmptyString => []
  | String a s' => N_of_ascii a :: lit s'
  end.

Definition quote_char : N := 34%N.      (* the double quote *)
Definition star_char : N := 9733%N.     (* U+2605, the star glyph *)
Definition half_char : N := 189%N.      (* U+00BD, the half glyph *)

(** [isPrefixOf p s]: [s] starts with [p]. *)
Fixpoint isPrefixOf (p s : str) : bool :=
  match p, s with
  | [], _ => true
  | a :: p', b :: s' => N.eqb a b && isPrefixOf p' s'
  | _ :: _, [] => false
  end.

(** [String.prototype.includes]. *)
Fixpoint includes (s sub : str) : bool :=
  isPrefixOf sub s ||
  match s with
  | [] => false
  | _ :: t => includes t sub
  end.

(** [`${n}`] for a number that is a non-negative integer. *)
Definition number_to_string (n : nat) : str :=
  lit (NilZero.string_of_uint (Nat.to_uint n)).

(** ** Regular expressions *)

(** Character matchers: a literal code unit, the escapes [\s], [\w], [\d],
    the dot, [[\s\S]] and a negated one-character class [[^c]]. *)
Inductive cls :=
| CChar (c : N)
| CAny
| CDot
| CSpace
| CWord
| CDigit
| CNot (c : N).

Definition in_range (lo hi c : N) : bool := N.leb lo c && N.leb c hi.

(** LineTerminator: LF, CR, LS, PS. *)
Definition is_line_terminator (c : N) : bool :=
  N.eqb c 10 || N.eqb c 13 || N.eqb c 8232 || N.eqb c 8233.

(** WhiteSpace and LineTerminator code units ([\s]). *)
Definition is_space (c : N) : bool :=
  in_range 9 13 c || N.eqb c 32 || N.eqb c 160 || N.eqb c 5760 ||
  in_range 8192 8202 c || N.eqb c 8232 || N.eqb c 8233 || N.eqb c 8239 ||
  N.eqb c 8287 || N.eqb c 12288 || N.eqb c 65279.

Definition is_digit (c : N) : bool := in_range 48 57 c.

Definition is_word (c : N) : bool :=
  in_range 97 122 c || in_range 65 90 c || is_digit c || N.eqb c 95.

Definition cls_mem (k : cls) (c : N) : bool :=
  match k with
  | CChar a => N.eqb a c
  | CAny => true
  | CDot => negb (is_line_terminator c)
  | CSpace => is_space c
  | CWord => is_word c
  | CDigit => is_digit c
  | CNot a => negb (N.eqb a c)
  end.

Inductive regex :=
| REmpty
| RClass (k : cls)
| RSeq (r1 r2 : regex)
| RAlt (r1 r2 : regex)
| RQuant (min : nat) (max : option nat) (greedy : bool) (r : regex)
| RGroup (i : nat) (r : regex)
| RStart
| REnd.

Declare Scope regex_scope.
Delimit Scope regex_scope with re.
Bind Scope regex_scope with regex.
Infix "⋅" := RSeq (at level 40, left associativity) : regex_scope.
Infix "∣" := RAlt (at level 50, left associativity) : regex_scope.

(** A run of literal characters. *)
Fixpoint RLit (s : str) : regex :=
  match s with
  | [] => REmpty
  | a :: s' => RSeq (RClass (CChar a)) (RLit s')
  end.

Definition RStr (s : string) : regex := RLit (lit s).

Definition star (k : cls) : regex := RQuant 0 None true (RClass k).
Definition lazy_star (k : cls) : regex := RQuant 0 None false (RClass k).
Definition plus (k : cls) : regex := RQuant 1 None true (RClass k).
Definition opt (k : cls) : regex := RQuant 0 (Some 1) true (RClass k).
Definition times (n : nat) (k : cls) : regex := RQuant n (Some n) true (RClass k).

(** Capture groups inside a pattern, and the largest group number. *)
Fixpoint groups_in (r : regex) : list nat :=
  match r with
  | REmpty | RClass _ | RStart | REnd => []
  | RSeq r1 r2 | RAlt r1 r2 => groups_in r1 ++ groups_in r2
  | RQuant _ _ _ r1 => groups_in r1
  | RGroup i r1 => i :: groups_in r1
  end.

Definition ngroups (r : regex) : nat := foldr Nat.max 0 (groups_in r).

(** ** The backtracking matcher (ECMA-262, 22.2.2) *)

(** A match state: the index reached, the input from that index on, and the
    captures made so far (slot [i] for group [i]; slot 0 is filled with the
    whole match at the end). *)
Record state := State { pos : nat; rest : str; caps : list (option str) }.

Definition cont := state → option state.

Definition or_else (a b : option state) : option state :=
  match a with
  | Some z => Some z
  | None => b
  end.

Definition advance (x : state) (t : str) : state :=
  State (S (pos x)) t (caps x).

Definition set_cap (i : nat) (v : str) (y : state) : state :=
  State (pos y) (rest y) (<[i := Some v]> (caps y)).

Definition clear_caps (gs : list nat) (x : state) : state :=
  State (pos x) (rest x) (foldr (λ i cs, <[i := None]> cs) (caps x) gs).

Definition pred_max (max : option nat) : option nat := Nat.pred <$> max.

(** RepeatMatcher.  [mr] is the matcher of the quantified atom and [gs] its
    capture groups.  Every iteration either uses up one of the [min]
    mandatory rounds or, by the empty check, consumes input, so
    [min + length (rest x)] rounds of [fuel] are never exhausted. *)
Fixpoint rep (mr : state → cont → option state) (gs : list nat)
    (greedy : bool) (c : cont) (fuel min : nat) (max : option nat)
    (x : state) : option state :=
  match max with
  | Some 0 => c x
  | _ =>
    match fuel with
    | 0 => c x
    | S fuel' =>
      let d : cont := λ y,
        if (min =? 0) && (pos y =? pos x) then None
        else rep mr gs greedy c fuel' (Nat.pred min) (pred_max max) y in
      let xr := clear_caps gs x in
      match min with
      | S _ => mr xr d
      | 0 =>
        if greedy then or_else (mr xr d) (c x)
        else or_else (c x) (mr xr d)
      end
    end
  end.

Fixpoint m (r : regex) (x : state) (c : cont) {struct r} : option state :=
  match r with
  | REmpty => c x
  | RClass k =>
    match rest x with
    | a :: t => if cls_mem k a then c (advance x t) else None
    | [] => None
    end
  | RSeq r1 r2 => m r1 x (λ y, m r2 y c)
  | RAlt r1 r2 => or_else (m r1 x c) (m r2 x c)
  | RQuant min max greedy r1 =>
    rep (m r1) (groups_in r1) greedy c (min + length (rest x)) min max x
  | RGroup i r1 =>
    m r1 x (λ y, c (set_cap i (take (pos y - pos x) (rest x)) y))
  | RStart => if pos x =? 0 then c x else None
  | REnd =>
    match rest x with
    | [] => c x
    | _ :: _ => None
    end
  end.

(** The result array of a successful match: [groups !! 0] is the matched
    text, [groups !! i] the capture of group [i]. *)
Record match_result := MatchResult {
  index : nat;
  end_index : nat;
  groups : list (option str)
}.

(** One attempt at index [i]. *)
Definition exec_at (r : regex) (input : str) (i : nat) : option match_result :=
  let rest0 := drop i input in
  match m r (State i rest0 (replicate (S (ngroups r)) None)) Some with
  | Some y =>
    Some (MatchResult i (pos y)
            (<[0 := Some (take (pos y - i) rest0)]> (caps y)))
  | None => None
  end.

(** RegExpBuiltinExec without the sticky flag: try [lastIndex], then every
    later index up to the length of the input. *)
Fixpoint scan (r : regex) (input : str) (fuel i : nat) : option match_result :=
  match exec_at r input i with
  | Some res => Some res
  | None =>
    match fuel with
    | 0 => None
    | S fuel' => scan r input fuel' (S i)
    end
  end.

Definition regexp_exec (r : regex) (input : str) (lastIndex : nat)
    : option match_result :=
  if length input <? lastIndex then None
  else scan r input (length input - lastIndex) lastIndex.

(** ** JavaScript values and abrupt completion *)

(** The values the program stores in a record field or calls a string method
    on: a string, [null], or [undefined] (a capture that took no part in the
    match). *)
Inductive value :=
| Str (s : str)
| Null
| Undefined.

(** How a call ends: with a value, with an exception, or not at all (a loop
    of the model that used up its fuel). *)
Inductive outcome (A : Type) :=
| Returned (a : A)
| Threw
| Diverged.
Arguments Returned {A} a.
Arguments Threw {A}.
Arguments Diverged {A}.

#[global] Instance outcome_ret : MRet outcome := λ A a, Returned a.
#[global] Instance outcome_bind : MBind outcome := λ A B f o,
  match o with
  | Returned a => f a
  | Threw => Threw
  | Diverged => Diverged
  end.

(** [match[i]]. *)
Definition capture (mt : match_result) (i : nat) : value :=
  match groups mt !! i with
  | Some (Some s) => Str s
  | _ => Undefined
  end.

(** [v.match(r)] for a regular expression without the [g] flag: a
    [TypeError] unless [v] is a string. *)
Definition js_match (v : value) (r : regex) : outcome (option match_result) :=
  match v with
  | Str s => Returned (regexp_exec r s 0)
  | Null | Undefined => Threw
  end.

(** [v.includes(sub)]. *)
Definition js_includes (v : value) (sub : str) : outcome bool :=
  match v with
  | Str s => Returned (includes s sub)
  | Null | Undefined => Threw
  end.

(** ToString, as a template literal applies it. *)
Definition to_string (v : value) : str :=
  match v with
  | Str s => s
  | Null => lit "null"
  | Undefined => lit "undefined"
  end.

(** [v.replace(r, fn)] for a regular expression with the [g] flag and a
    replacer function: the matches are collected from left to right (an
    empty match moves [lastIndex] one further), and the text between them is
    copied. [next] is the end of the previous match. *)
Fixpoint replace_loop (r : regex) (fn : str → value) (input : str)
    (fuel lastIndex next : nat) (acc : str) : outcome str :=
  match fuel with
  | 0 => Diverged
  | S fuel' =>
    match regexp_exec r input lastIndex with
    | None => Returned (acc ++ drop next input)
    | Some mt =>
      let matched := take (end_index mt - index mt) (drop (index mt) input) in
      let acc' :=
        acc ++ take (index mt - next) (drop next input)
            ++ to_string (fn matched) in
      replace_loop r fn input fuel'
        (if end_index mt =? index mt then S (end_index mt) else end_index mt)
        (end_index mt) acc'
    end
  end.

Definition js_replace (v : value) (r : regex) (fn : str → value)
    : outcome value :=
  match v with
  | Str s =>
    out ← replace_loop r fn s (2 + length s) 0 0 [];
    Returned (Str out)
  | Null | Undefined => Threw
  end.

(** ** The patterns of [letterboxd.js] *)

Definition RChar (s : string) : cls :=
  match lit s with
  | c :: _ => CChar c
  | [] => CAny
  end.

Definition CNotStr (s : string) : cls :=
  match lit s with
  | c :: _ => CNot c
  | [] => CAny
  end.

(** [/<item>([\s\S]*?)<\/item>/g] *)
Definition itemRegex : regex :=
  (RStr "<item>" ⋅ RGroup 1 (lazy_star CAny) ⋅ RStr "</item>")%re.

(** [/<title><!\[CDATA\[(.*?)\]\]><\/title>/] *)
Definition titleCdataRegex : regex :=
  (RStr "<title><![CDATA[" ⋅ RGroup 1 (lazy_star CDot) ⋅ RStr "]]></title>")%re.

(** [/<title>(.*?)<\/title>/] *)
Definition titlePlainRegex : regex :=
  (RStr "<title>" ⋅ RGroup 1 (lazy_star CDot) ⋅ RStr "</title>")%re.

(** [/<link>(.*?)<\/link>/] *)
Definition linkRegex : regex :=
  (RStr "<link>" ⋅ RGroup 1 (lazy_star CDot) ⋅ RStr "</link>")%re.

(** [/<description><!\[CDATA\[([\s\S]*?)\]\]><\/description>/] *)
Definition descRegex : regex :=
  (RStr "<description><![CDATA[" ⋅ RGroup 1 (lazy_star CAny)
     ⋅ RStr "]]></description>")%re.

(** [/^(.+),\s*(\d{4})$/] *)
Definition titleYearRegex : regex :=
  (RStart ⋅ RGroup 1 (plus CDot) ⋅ RStr "," ⋅ star CSpace
     ⋅ RGroup 2 (times 4 CDigit) ⋅ REnd)%re.

(** [/★+½?/] *)
Definition ratingRegex : regex :=
  (plus (CChar star_char) ⋅ opt (CChar half_char))%re.

(** [/Watched on\s+\w+\s+(\w+\s+\d+,\s+\d{4})/] *)
Definition dateRegex : regex :=
  (RStr "Watched on" ⋅ plus CSpace ⋅ plus CWord ⋅ plus CSpace
     ⋅ RGroup 1 (plus CWord ⋅ plus CSpace ⋅ plus CDigit ⋅ RStr ","
                   ⋅ plus CSpace ⋅ times 4 CDigit))%re.

(** [/data-target-link="(\/film\/[^"]+\/)"[^>]*>[\s\S]*?<img[^>]*alt="([^"]+)"/g] *)
Definition filmPattern : regex :=
  (RStr "data-target-link=" ⋅ RLit [quote_char]
     ⋅ RGroup 1 (RStr "/film/" ⋅ plus (CNot quote_char) ⋅ RStr "/")
     ⋅ RLit [quote_char] ⋅ star (CNotStr ">") ⋅ RStr ">"
     ⋅ lazy_star CAny ⋅ RStr "<img" ⋅ star (CNotStr ">")
     ⋅ RStr "alt=" ⋅ RLit [quote_char]
     ⋅ RGroup 2 (plus (CNot quote_char)) ⋅ RLit [quote_char])%re.

(** [/&#039;|&amp;|&lt;|&gt;|&quot;/g] *)
Definition entityRegex : regex :=
  (RStr "&#039;" ∣ RStr "&amp;" ∣ RStr "&lt;" ∣ RStr "&gt;" ∣ RStr "&quot;")%re.

(** ** The data model *)

Record Film := mkFilm {
  title : value;
  year : value;
  rating : value;
  watchDate : value;
  link : value;
  rewatch : bool
}.

(** ** [decodeHtmlEntities] *)

(** The object literal [entities], as its own properties in source order. *)
Definition entities : list (str * str) :=
  [ (lit "&#039;", lit "'");
    (lit "&amp;", lit "&");
    (lit "&lt;", lit "<");
    (lit "&gt;", lit ">");
    (lit "&quot;", [quote_char]) ].

(** [entities[m]]: [undefined] for a key the object does not have. *)
Definition entities_get (key : str) : value :=
  match list_find (λ kv, kv.1 = key) entities with
  | Some (_, (_, v)) => Str v
  | None => Undefined
  end.

Definition decodeHtmlEntities (v : value) : outcome value :=
  js_replace v entityRegex (λ matched, entities_get matched).

(** ** [parseFilmsPage] *)

Definition site : str := lit "https://letterboxd.com".

(** The [while ((match = pattern.exec(html)) !== null)] loop; [lastIndex] is
    the property of the same name of the [g]-flagged [pattern]. *)
Fixpoint parseFilmsPage_loop (html : str) (fuel lastIndex : nat)
    (films : list Film) : outcome (list Film) :=
  match fuel with
  | 0 => Diverged
  | S fuel' =>
    match regexp_exec filmPattern html lastIndex with
    | None => Returned films
    | Some mt =>
      let link := capture mt 1 in
      title ← decodeHtmlEntities (capture mt 2);
      parseFilmsPage_loop html fuel' (end_index mt)
        (films ++ [ {| title := title;
                       year := Null;
                       rating := Null;
                       watchDate := Null;
                       link := Str (site ++ to_string link);
                       rewatch := false |} ])
    end
  end.

Definition parseFilmsPage (html : str) : outcome (list Film) :=
  parseFilmsPage_loop html (S (length html)) 0 [].

(** ** The feed parser of [fetchRecentActivity] *)

(** The body of the [while] loop for one [item = match[1]]: [None] is the
    [continue] of an item without a title. *)
Definition feed_item (item : value) : outcome (option Film) :=
  cdataTitle ← js_match item titleCdataRegex;
  titleMatch ← match cdataTitle with
               | Some mt => Returned (Some mt)
               | None => js_match item titlePlainRegex
               end;
  linkMatch ← js_match item linkRegex;
  descMatch ← js_match item descRegex;
  match titleMatch with
  | None => Returned None
  | Some titleMatch =>
    let fullTitle := capture titleMatch 1 in
    titleYearMatch ← js_match fullTitle titleYearRegex;
    let title := match titleYearMatch with
                 | Some tym => capture tym 1
                 | None => fullTitle
                 end in
    let year := match titleYearMatch with
                | Some tym => capture tym 2
                | None => Null
                end in
    '(rating, rewatch, watchDate) ←
      match descMatch with
      | None => Returned (Null, false, Null)
      | Some descMatch =>
        let desc := capture descMatch 1 in
        ratingMatch ← js_match desc ratingRegex;
        rewatch ← js_includes desc (lit "Rewatched");
        dateMatch ← js_match desc dateRegex;
        Returned (match ratingMatch with
                  | Some rm => capture rm 0
                  | None => Null
                  end,
                  rewatch,
                  match dateMatch with
                  | Some dm => capture dm 1
                  | None => Null
                  end)
      end;
    Returned (Some {| title := title;
                      year := year;
                      rating := rating;
                      watchDate := watchDate;
                      link := match linkMatch with
                              | Some lm => capture lm 1
                              | None => Null
                              end;
                      rewatch := rewatch |})
  end.

(** The [while ((match = itemRegex.exec(xml)) !== null)] loop. *)
Fixpoint feed_loop (xml : str) (fuel lastIndex : nat) (films : list Film)
    : outcome (list Film) :=
  match fuel with
  | 0 => Diverged
  | S fuel' =>
    match regexp_exec itemRegex xml lastIndex with
    | None => Returned films
    | Some mt =>
      film ← feed_item (capture mt 1);
      feed_loop xml fuel' (end_index mt)
        (match film with
         | Some f => films ++ [f]
         | None => films
         end)
    end
  end.

Definition parseFeed (xml : str) : outcome (list Film) :=
  feed_loop xml (S (length xml)) 0 [].

(** ** The transport *)

(** [fetch] is an external collaborator.  It is modelled by a script: the
    responses the network will give, in order.  A request made when the
    script is used up fails (the promise of [fetch] rejects).  Every request
    is recorded. *)
Record request := Request { req_url : str; req_headers : list (str * str) }.
Record response := Response { ok : bool; body : str }.
Record world := World { pending : list response; requests : list request }.

Definition fetch (url : str) (headers : list (str * str)) (w : world)
    : outcome response * world :=
  let log := requests w ++ [Request url headers] in
  match pending w with
  | [] => (Threw, World [] log)
  | r :: rs => (Returned r, World rs log)
  end.

Definition userAgent : list (str * str) :=
  [ (lit "User-Agent", lit "Mozilla/5.0") ].

(** ** The three entry points *)

Definition feed_url (username : str) : str :=
  site ++ lit "/" ++ username ++ lit "/rss/".

Definition fetchRecentActivity (username : str) (w : world)
    : outcome (list Film) * world :=
  let url := feed_url username in
  match fetch url [] w with
  | (Returned response, w1) =>
    let xml := body response in
    (parseFeed xml, w1)
  | (Threw, w1) => (Threw, w1)
  | (Diverged, w1) => (Diverged, w1)
  end.

Definition films_url (username : str) (page : nat) : str :=
  site ++ lit "/" ++ username ++ lit "/films/page/"
       ++ number_to_string page ++ lit "/".

Definition watchlist_url (username : str) (page : nat) : str :=
  site ++ lit "/" ++ username ++ lit "/watchlist/page/"
       ++ number_to_string page ++ lit "/".

(** [fetchWatchedFilms] and [fetchWatchlist] are the same loop, written out
    twice in the source; they differ in the bound on [page] and in the URL.
    [page_loop] is that loop, [fuel] counting the iterations left. *)
Fixpoint page_loop (ceiling : nat) (url_of : nat → str) (fuel page : nat)
    (films : list Film) (w : world) : outcome (list Film) * world :=
  match fuel with
  | 0 => (Diverged, w)
  | S fuel' =>
    if page <=? ceiling then
      match fetch (url_of page) userAgent w with
      | (Returned response, w1) =>
        if negb (ok response) then (Returned films, w1)
        else
          let html := body response in
          match parseFilmsPage html with
          | Returned pageFilms =>
            if length pageFilms =? 0 then (Returned films, w1)
            else page_loop ceiling url_of fuel' (page + 1)
                   (films ++ pageFilms) w1
          | Threw => (Threw, w1)
          | Diverged => (Diverged, w1)
          end
      | (Threw, w1) => (Threw, w1)
      | (Diverged, w1) => (Diverged, w1)
      end
    else (Returned films, w)
  end.

Definition fetchWatchedFilms (username : str) (w : world)
    : outcome (list Film) * world :=
  page_loop 50 (films_url username) 51 1 [] w.

Definition fetchWatchlist (username : str) (w : world)
    : outcome (list Film) * world :=
  page_loop 20 (watchlist_url username) 21 1 [] w.

(** * Definitions for the statements *)

(** ** Patterns of ECMA-262's notes, to try the matcher on *)

Definition chr (s : string) : regex := RClass (RChar s).

(** The pattern of note 3: [z], then any number of rounds of an optional
    run of [a], an optional run of [b] and a [c], each part a group. *)
Definition ecma_reset_pattern : regex :=
  (RGroup 1 (chr "z") ⋅
   RQuant 0 None true
     (RGroup 2 (RQuant 0 (Some 1) true (RGroup 3 (plus (RChar "a")))
                ⋅ RQuant 0 (Some 1) true (RGroup 4 (plus (RChar "b")))
                ⋅ RGroup 5 (chr "c"))))%re.

(** The pattern of note 2: [a] or [ab], then [c] or [bcd], then a run of
    [d], each part a group. *)
Definition ecma_choice_pattern : regex :=
  (RGroup 1 (chr "a" ∣ (chr "a" ⋅ chr "b"))
   ⋅ RGroup 2 (chr "c" ∣ (chr "b" ⋅ chr "c" ⋅ chr "d"))
   ⋅ RGroup 3 (star (RChar "d")))%re.

(** ** What a pattern matches

    [Matches r x y]: the pattern [r] can take the matcher from state [x] to
    state [y].  This is the declarative reading of the matcher [m]; it does
    not say which of several matches [m] prefers.  A quantifier iterates its
    atom with the atom's captures cleared, and an iteration beyond the
    mandatory ones has to consume input. *)
Inductive Matches : regex → state → state → Prop :=
| M_empty x : Matches REmpty x x
| M_class k x a t :
    rest x = a :: t → cls_mem k a = true → Matches (RClass k) x (advance x t)
| M_seq r1 r2 x y z :
    Matches r1 x y → Matches r2 y z → Matches (RSeq r1 r2) x z
| M_alt_l r1 r2 x y : Matches r1 x y → Matches (RAlt r1 r2) x y
| M_alt_r r1 r2 x y : Matches r2 x y → Matches (RAlt r1 r2) x y
| M_group i r x y :
    Matches r x y →
    Matches (RGroup i r) x (set_cap i (take (pos y - pos x) (rest x)) y)
| M_start x : pos x = 0 → Matches RStart x x
| M_end x : rest x = [] → Matches REnd x x
| M_quant_stop max g r x : Matches (RQuant 0 max g r) x x
| M_quant_none min g r x : Matches (RQuant min (Some 0) g r) x x
| M_quant_iter min max g r x y z :
    max ≠ Some 0 →
    Matches r (clear_caps (groups_in r) x) y →
    (min = 0 → pos y ≠ pos x) →
    Matches (RQuant (Nat.pred min) (pred_max max) g r) y z →
    Matches (RQuant min max g r) x z.

(** [y] is [x] after the text [seg] has been consumed. *)
Definition consumed (x y : state) (seg : str) : Prop :=
  rest x = seg ++ rest y ∧ pos y = pos x + length seg.

(** Two continuations that agree on every state reachable from [x]. *)
Definition agree_from (x : state) (c1 c2 : cont) : Prop :=
  ∀ y seg, consumed x y seg → c1 y = c2 y.

(** A quantifier [{min,max}] as the parser accepts it: [min ≤ max]. *)
Definition wfq (min : nat) (max : option nat) : Prop :=
  ∀ n, max = Some n → min ≤ n.

(** The state [exec_at] starts from, and the result it builds. *)
Definition init (r : regex) (input : str) (i : nat) : state :=
  State i (drop i input) (replicate (S (ngroups r)) None).

Definition result_of (i : nat) (input : str) (y : state) : match_result :=
  MatchResult i (pos y) (<[0 := Some (take (pos y - i) (drop i input))]> (caps y)).

(** ** The entity decoder as a scan from left to right

    Where one of the entities of a table starts, it is replaced by its
    character and skipped; any other character (the [&] of an unknown
    entity too) is copied.  [entity_at s] is the entity of the table of the
    code that [s] starts with. *)
Fixpoint entity_in (tbl : list (str * str)) (s : str) : option (str * str) :=
  match tbl with
  | [] => None
  | (key, ch) :: tbl' =>
    if isPrefixOf key s then Some (key, ch) else entity_in tbl' s
  end.

Definition entity_at (s : str) : option (str * str) := entity_in entities s.

(** [skip] counts the characters of an entity still to be passed over. *)
Fixpoint decode_spec (skip : nat) (s : str) : str :=
  match s with
  | [] => []
  | c :: t =>
    match skip with
    | S k => decode_spec k t
    | 0 =>
      match entity_at s with
      | Some (key, ch) => ch ++ decode_spec (length key - 1) t
      | None => c :: decode_spec 0 t
      end
    end
  end.

(** [x] moved [n] characters on. *)
Definition skip_by (n : nat) (x : state) : state :=
  State (pos x + n) (drop n (rest x)) (caps x).

(** ** The values the loop body of [fetchRecentActivity] binds

    [feed_item] is one block of code in the source; these are its parts, as
    functions of the item text: [titleMatch[1]], the title and year, the
    link, [descMatch[1]], and what is read from the description. *)
Definition captured (mt : match_result) (i : nat) : option str :=
  mjoin (groups mt !! i).

Definition feed_full_title (item : str) : option str :=
  match regexp_exec titleCdataRegex item 0 with
  | Some mt => captured mt 1
  | None =>
    match regexp_exec titlePlainRegex item 0 with
    | Some mt => captured mt 1
    | None => None
    end
  end.

Definition title_year (fullTitle : str) : value * value :=
  match regexp_exec titleYearRegex fullTitle 0 with
  | Some tym => (capture tym 1, capture tym 2)
  | None => (Str fullTitle, Null)
  end.

Definition feed_link (item : str) : value :=
  match regexp_exec linkRegex item 0 with
  | Some lm => capture lm 1
  | None => Null
  end.

Definition feed_desc (item : str) : option str :=
  match regexp_exec descRegex item 0 with
  | Some dm => captured dm 1
  | None => None
  end.

Definition rating_of (desc : str) : value :=
  match regexp_exec ratingRegex desc 0 with
  | Some rm => capture rm 0
  | None => Null
  end.

Definition watch_date_of (desc : str) : value :=
  match regexp_exec dateRegex desc 0 with
  | Some dm => capture dm 1
  | None => Null
  end.

(** The record of an item; [None] for an item that is skipped. *)
Definition item_film (item : str) : option Film :=
  match feed_full_title item with
  | None => None
  | Some fullTitle =>
    Some {| title := (title_year fullTitle).1;
            year := (title_year fullTitle).2;
            rating := from_option rating_of Null (feed_desc item);
            watchDate := from_option watch_date_of Null (feed_desc item);
            link := feed_link item;
            rewatch := from_option (λ d, includes d (lit "Rewatched")) false
                         (feed_desc item) |}
  end.

(** [s] is [text], a comma, the white space [ws] and the four digits [d],
    with [text] not empty. *)
Definition splits_as (s text ws d : str) : Prop :=
  s = text ++ lit "," ++ ws ++ d ∧ text ≠ [] ∧
  forallb is_space ws = true ∧ length d = 4 ∧ forallb is_digit d = true.

(** The half glyph, when [tail] starts with it. *)
Definition half_suffix (tail : str) : str :=
  if isPrefixOf [half_char] tail then [half_char] else [].

(** ** Successive matches of a [g]-flagged pattern

    The results of calling [exec] again and again, each call starting where
    the previous match ended. *)
Fixpoint all_matches (r : regex) (input : str) (fuel lastIndex : nat)
    : list match_result :=
  match fuel with
  | 0 => []
  | S fuel' =>
    match regexp_exec r input lastIndex with
    | None => []
    | Some mt => mt :: all_matches r input fuel' (end_index mt)
    end
  end.

(** The item bodies of a feed document, in document order. *)
Definition feed_items (xml : str) : list str :=
  omap (λ mt, captured mt 1) (all_matches itemRegex xml (S (length xml)) 0).

(** The record [parseFilmsPage] builds from one match, and the records of a
    page. *)
Definition listing_film (mt : match_result) : Film :=
  {| title := Str (decode_spec 0 (default [] (captured mt 2)));
     year := Null;
     rating := Null;
     watchDate := Null;
     link := Str (site ++ to_string (capture mt 1));
     rewatch := false |}.

Definition page_films (html : str) : list Film :=
  listing_film <$> all_matches filmPattern html (S (length html)) 0.

(** ** Pages and requests *)

(** What a call's result holds when it returned. *)
Definition films_of (o : outcome (list Film)) : list Film :=
  match o with
  | Returned films => films
  | Threw | Diverged => []
  end.

(** The films of a response's body. *)
Definition films_on (r : response) : list Film :=
  films_of (parseFilmsPage (body r)).

(** A page after which the loop goes on, and a page that ends it. *)
Definition more_pages (r : response) : Prop :=
  ok r = true ∧ parseFilmsPage (body r) ≠ Returned [].

Definition end_of_pages (r : response) : Prop :=
  ok r = false ∨ parseFilmsPage (body r) = Returned [].

(** The request the loop makes for [page]. *)
Definition page_request (url_of : nat → str) (page : nat) : request :=
  Request (url_of page) userAgent.

(** ** What the specification asks of titles *)

(** A record has a title when the field is a string that is not empty. *)
Definition has_title (f : Film) : Prop := ∃ s, title f = Str s ∧ s ≠ [].

(** The split as the specification words it: a title that ends in a comma, one
    space and four digits is cut before the comma; any other title is kept
    whole, with no year. *)
Definition spec_title_year (s : str) : value * value :=
  let n := length s in
  if (6 <=? n)
     && bool_decide (take 2 (drop (n - 6) s) = lit ", ")
     && forallb is_digit (drop (n - 4) s)
  then (Str (take (n - 6) s), Str (drop (n - 4) s))
  else (Str s, Null).

(** ** Sample inputs *)

Definition plain_film (t : string) : Film :=
  {| title := Str (lit t); year := Null; rating := Null; watchDate := Null;
     link := Null; rewatch := false |}.

Definition dated_film (t y : string) : Film :=
  {| title := Str (lit t); year := Str (lit y); rating := Null;
     watchDate := Null; link := Null; rewatch := false |}.

Definition six_star_item : str :=
  lit "<title>Heat</title><description><![CDATA[" ++ replicate 6 star_char
  ++ lit "]]></description>".

Definition rated_desc : str :=
  lit "<p>Seen: " ++ [star_char; star_char; star_char; half_char]
  ++ lit " and again</p>".

Definition rated_item : str :=
  lit "<title>Heat, 1995</title><description><![CDATA[" ++ rated_desc
  ++ lit "]]></description>".

Definition rated_film : Film :=
  {| title := Str (lit "Heat"); year := Str (lit "1995");
     rating := Str [star_char; star_char; star_char; half_char];
     watchDate := Null; link := Null; rewatch := false |}.

Definition listing_page (slug name : string) : str :=
  lit "<li data-target-link=" ++ [quote_char] ++ lit "/film/" ++ lit slug
  ++ lit "/" ++ [quote_char] ++ lit "><img alt=" ++ [quote_char] ++ lit name
  ++ [quote_char] ++ lit "></li>".

Definition listing_record (slug name : string) : Film :=
  {| title := Str (lit name); year := Null; rating := Null; watchDate := Null;
     link := Str (lit "https://letterboxd.com/film/" ++ lit slug ++ lit "/");
     rewatch := false |}.

Definition matrix_feed : str :=
  lit "<rss><channel><item><title>The Matrix, 1999</title>"
  ++ lit "<link>https://x/the-matrix/</link><description><![CDATA[<p>"
  ++ replicate 5 star_char
  ++ lit "</p><p>Watched on Monday June 10, 2024.</p>]]></description></item></channel></rss>".

Definition matrix_feed_cdata : str :=
  lit "<item><title><![CDATA[The Matrix, 1999]]></title> "
  ++ lit "<link>https://x/the-matrix/</link> <description><![CDATA["
  ++ replicate 5 star_char
  ++ lit " Watched on Monday June 10, 2024]]></description></item>".

Definition matrix_film : Film :=
  {| title := Str (lit "The Matrix");
     year := Str (lit "1999");
     rating := Str (replicate 5 star_char);
     watchDate := Str (lit "June 10, 2024");
     link := Str (lit "https://x/the-matrix/");
     rewatch := false |}.

Definition two_items : str :=
  lit "<item><link>https://x/untitled/</link></item><item><title>Ran</title></item>".

(** ** Shapes of the fields of a feed record *)

(** A watch date: a word, white space, digits, a comma, white space and four
    digits. *)
Definition date_shape (d : str) : Prop :=
  ∃ month s1 day s2 yr,
    d = month ++ s1 ++ day ++ lit "," ++ s2 ++ yr ∧
    month ≠ [] ∧ forallb is_word month = true ∧
    s1 ≠ [] ∧ forallb is_space s1 = true ∧
    day ≠ [] ∧ forallb is_digit day = true ∧
    s2 ≠ [] ∧ forallb is_space s2 = true ∧
    length yr = 4 ∧ forallb is_digit yr = true.

(** A rating: one or more stars, then possibly the half glyph. *)
Definition rating_shape (r : str) : Prop :=
  ∃ n, r = replicate (S n) star_char ∨
       r = replicate (S n) star_char ++ [half_char].

(** No line terminator in a string. *)
Definition one_line (s : str) : bool := forallb (cls_mem CDot) s.

Definition feed_record_ok (f : Film) : Prop :=
  (∃ t, title f = Str t ∧ one_line t = true) ∧
  (year f = Null ∨
   ∃ d, year f = Str d ∧ length d = 4 ∧ forallb is_digit d = true) ∧
  (rating f = Null ∨ ∃ r, rating f = Str r ∧ rating_shape r) ∧
  (watchDate f = Null ∨ ∃ d, watchDate f = Str d ∧ date_shape d) ∧
  (link f = Null ∨
   ∃ l, link f = Str l ∧ one_line l = true ∧
        includes l (lit "</link>") = false).

(** ** More sample inputs *)

Definition ampersand : N := 38%N.

Definition listing_record_ok (f : Film) : Prop :=
  year f = Null ∧ rating f = Null ∧ watchDate f = Null ∧ rewatch f = false ∧
  ∃ slug, slug ≠ [] ∧ forallb (cls_mem (CNot quote_char)) slug = true ∧
          link f = Str (site ++ lit "/film/" ++ slug ++ lit "/").

Definition rewatched_desc : str := lit "<p>Rewatched on a plane</p>".

Definition rewatched_item : str :=
  lit "<title>Ran</title><description><![CDATA[" ++ rewatched_desc
  ++ lit "]]></description>".

Definition rewatched_film : Film :=
  {| title := Str (lit "Ran"); year := Null; rating := Null;
     watchDate := Null; link := Null; rewatch := true |}.

(** ** Markers, the item of the example, and the table of the specification *)

(** No proper, non-empty end of [b] is also a start of [b]: two occurrences
    of [b] in a text cannot overlap. *)
Definition no_border (b : str) : bool :=
  forallb (λ n, negb (isPrefixOf (drop n b) b)) (seq 1 (length b - 1)).

(** [text] is what stands in [s] between the first [opening] of [s] and the
    first [closing] after it. *)
Definition element (opening closing text s : str) : Prop :=
  ∃ before after,
    s = before ++ opening ++ text ++ closing ++ after ∧
    includes before opening = false ∧ includes text closing = false.

(** The entity decoder as the specification words it: the entities for
    apostrophe, ampersand, less-than, greater-than and double quote are
    replaced by their literal characters (the code units 39, 38, 60, 62 and
    34); everything else, an entity that is not one of the five too, is
    copied. *)
Definition spec_entities : list (str * str) :=
  [ (lit "&#039;", [39%N]);
    (lit "&amp;", [38%N]);
    (lit "&lt;", [60%N]);
    (lit "&gt;", [62%N]);
    (lit "&quot;", [34%N]) ].

Fixpoint decoder_of_spec (skip : nat) (s : str) : str :=
  match s with
  | [] => []
  | c :: t =>
    match skip with
    | S k => decoder_of_spec k t
    | 0 =>
      match entity_in spec_entities s with
      | Some (key, ch) => ch ++ decoder_of_spec (length key - 1) t
      | None => c :: decoder_of_spec 0 t
      end
    end
  end.

(** The description of the end-to-end example: the first star of the text
    starts a run of five stars with neither a star nor the half glyph after
    it, the first [Watched on] of the text starts
    [Watched on Monday June 10, 2024], and [Rewatched] does not occur. *)
Definition matrix_desc (desc : str) : Prop :=
  (∃ r0 r1, desc = r0 ++ replicate 5 star_char ++ r1 ∧ (star_char ∉ r0) ∧
            isPrefixOf [star_char] r1 = false ∧
            isPrefixOf [half_char] r1 = false) ∧
  (∃ w0 w1, desc = w0 ++ lit "Watched on Monday June 10, 2024" ++ w1 ∧
            includes w0 (lit "Watched on") = false) ∧
  includes desc (lit "Rewatched") = false.

(** The item of the end-to-end example: its first title element, in a CDATA
    section or plain (and then with no CDATA title in the item), holds
    [The Matrix, 1999]; its first link element holds the link; its first
    description in a CDATA section holds a description as above. *)
Definition matrix_item (item : str) : Prop :=
  (element (lit "<title><![CDATA[") (lit "]]></title>")
     (lit "The Matrix, 1999") item ∨
   (element (lit "<title>") (lit "</title>") (lit "The Matrix, 1999") item ∧
    includes item (lit "<title><![CDATA[") = false)) ∧
  element (lit "<link>") (lit "</link>") (lit "https://x/the-matrix/") item ∧
  ∃ desc,
    element (lit "<description><![CDATA[") (lit "]]></description>") desc item ∧
    matrix_desc desc.

(** A feed of one item with the title and the link of the example and the
    given description element, and the record of the example with another
    rating and watch date. *)
Definition matrix_with (description : str) : str :=
  lit "<rss><item><title>The Matrix, 1999</title>"
  ++ lit "<link>https://x/the-matrix/</link>"
  ++ description ++ lit "</item></rss>".

Definition matrix_record (stars date : value) : Film :=
  {| title := Str (lit "The Matrix");
     year := Str (lit "1999");
     rating := stars;
     watchDate := date;
     link := Str (lit "https://x/the-matrix/");
     rewatch := false |}.

(** ** Sample inputs for the further properties *)

Definition plain_desc_item : str :=
  lit "<title>Ran</title><description>Rewatched " ++ replicate 3 star_char
  ++ lit "</description>".

Definition unclosed_feed : str :=
  lit "<rss><item><title>Ran</title><link>https://x/ran/</link></rss>".

Definition imageless_page : str :=
  lit "<li data-target-link=" ++ [quote_char] ++ lit "/film/ran/"
  ++ [quote_char] ++ lit "><span>Ran</span></li>".

(** * Properties *)

(** ** The matcher on examples of ECMA-262 *)

(** The captures of an iteration are cleared when the next one starts:
    group 4 is undefined at the end (note 3 of 22.2.2.3.1). *)
Example ecma_reset :
  regexp_exec ecma_reset_pattern (lit "zaacbbbcac") 0
  = Some (MatchResult 0 10
            [Some (lit "zaacbbbcac"); Some (lit "z"); Some (lit "ac");
             Some (lit "a"); None; Some (lit "c")]).
Proof. vm_compute. reflexivity. Qed.

(** The left alternative is tried first, and kept if the rest matches. *)
Example ecma_choice :
  regexp_exec ecma_choice_pattern (lit "abcd") 0
  = Some (MatchResult 0 4
            [Some (lit "abcd"); Some (lit "a"); Some (lit "bcd"); Some []]).
Proof. vm_compute. reflexivity. Qed.

(** A starred group of a starred [a], on [b]: an iteration that consumes
    nothing is rejected. *)
Example ecma_empty_check :
  regexp_exec (RQuant 0 None true (RGroup 1 (star (RChar "a")))) (lit "b") 0
  = Some (MatchResult 0 0 [Some []; None]).
Proof. vm_compute. reflexivity. Qed.

(** [a] and two to four word characters, lazy and greedy, on [abcdefghi]. *)
Example ecma_lazy_greedy :
  regexp_exec (chr "a" ⋅ RQuant 2 (Some 4) false (RClass CWord))
    (lit "abcdefghi") 0
  = Some (MatchResult 0 3 [Some (lit "abc")]) ∧
  regexp_exec (chr "a" ⋅ RQuant 2 (Some 4) true (RClass CWord))
    (lit "abcdefghi") 0
  = Some (MatchResult 0 5 [Some (lit "abcde")]).
Proof. split; vm_compute; reflexivity. Qed.

(** A lazy run of [a] and a [b], on [xaab]: the leftmost index at which a
    match exists wins. *)
Example leftmost_match :
  regexp_exec (lazy_star (RChar "a") ⋅ chr "b") (lit "xaab") 0
  = Some (MatchResult 1 4 [Some (lit "aab")]).
Proof. vm_compute. reflexivity. Qed.


(** ** The matcher is sound *)

Lemma consumed_refl x : consumed x x [].
Proof. split; simpl; [done | lia]. Qed.

Lemma consumed_trans x y z s1 s2 :
  consumed x y s1 → consumed y z s2 → consumed x z (s1 ++ s2).
Proof.
  intros [H1 H2] [H3 H4]. split.
  - rewrite H1, H3. by rewrite app_assoc.
  - rewrite length_app. lia.
Qed.

Lemma Matches_consumed r x y :
  Matches r x y → ∃ seg, consumed x y seg.
Proof.
  induction 1.
  - exists []. apply consumed_refl.
  - exists [a]. split; simpl; [done | lia].
  - destruct IHMatches1 as [s1 ?], IHMatches2 as [s2 ?].
    exists (s1 ++ s2). by eapply consumed_trans.
  - done.
  - done.
  - destruct IHMatches as [s [? ?]]. exists s. split; simpl; done.
  - exists []. apply consumed_refl.
  - exists []. apply consumed_refl.
  - exists []. apply consumed_refl.
  - exists []. apply consumed_refl.
  - destruct IHMatches1 as [s1 [? ?]], IHMatches2 as [s2 ?].
    exists (s1 ++ s2). eapply consumed_trans; [|done]. split; done.
Qed.

Lemma length_clear_caps gs x : length (caps (clear_caps gs x)) = length (caps x).
Proof.
  unfold clear_caps. simpl. induction gs as [|g gs IH]; simpl; [done|].
  by rewrite length_insert.
Qed.

Lemma Matches_caps_length r x y :
  Matches r x y → length (caps y) = length (caps x).
Proof.
  induction 1; simpl; try done; try congruence.
  - by rewrite length_insert.
  - rewrite IHMatches2, IHMatches1. apply length_clear_caps.
Qed.

(** Every result of the matcher is a match. *)
Lemma rep_sound r g c :
  (∀ x c z, m r x c = Some z → ∃ y, Matches r x y ∧ c y = Some z) →
  ∀ fuel min max x z, min ≤ fuel →
    rep (m r) (groups_in r) g c fuel min max x = Some z →
    ∃ y, Matches (RQuant min max g r) x y ∧ c y = Some z.
Proof.
  intros Hr. induction fuel as [|fuel IH]; intros min max x z Hmin H.
  - assert (min = 0) as -> by lia.
    exists x. split; [constructor|]. simpl in H. by destruct max as [[|?]|].
  - assert (max = Some 0 ∨ max ≠ Some 0) as [->|Hmax].
    { destruct max as [[|?]|]; auto. }
    { exists x. split; [constructor|done]. }
    assert (Hiter : m r (clear_caps (groups_in r) x)
       (λ y, if (min =? 0) && (pos y =? pos x) then None
             else rep (m r) (groups_in r) g c fuel (Nat.pred min) (pred_max max) y) = Some z →
       ∃ y, Matches (RQuant min max g r) x y ∧ c y = Some z).
    { intros H1. apply Hr in H1 as (y & Hy & Hd).
      destruct ((min =? 0) && (pos y =? pos x)) eqn:E; [done|].
      apply IH in Hd as (y' & Hy' & Hc); [|lia].
      exists y'. split; [|done].
      eapply M_quant_iter; eauto.
      intros ->. simpl in E. by apply Nat.eqb_neq in E. }
    cbn [rep] in H.
    assert (Hstop : min = 0 → c x = Some z → ∃ y, Matches (RQuant min max g r) x y ∧ c y = Some z).
    { intros -> ?. exists x. split; [constructor|done]. }
    destruct max as [[|n]|]; [done| |].
    + destruct min; [|by apply Hiter].
      destruct g; unfold or_else in H.
      * destruct (m r _ _) eqn:E; [apply Hiter; congruence | by apply Hstop].
      * destruct (c x) eqn:E; [apply Hstop; congruence | by apply Hiter].
    + destruct min; [|by apply Hiter].
      destruct g; unfold or_else in H.
      * destruct (m r _ _) eqn:E; [apply Hiter; congruence | by apply Hstop].
      * destruct (c x) eqn:E; [apply Hstop; congruence | by apply Hiter].
Qed.

Theorem m_sound r : ∀ x c z,
  m r x c = Some z → ∃ y, Matches r x y ∧ c y = Some z.
Proof.
  induction r; intros x c z H; cbn [m] in H.
  - exists x. split; [constructor|done].
  - destruct (rest x) as [|a t] eqn:E; [done|].
    destruct (cls_mem k a) eqn:Ek; [|done].
    exists (advance x t). split; [by econstructor|done].
  - apply IHr1 in H as (y & Hy & H). apply IHr2 in H as (y' & Hy' & H).
    exists y'. split; [by econstructor|done].
  - unfold or_else in H. destruct (m r1 x c) eqn:E.
    + apply IHr1 in E as (y & ? & ?). exists y. split; [by apply M_alt_l|congruence].
    + apply IHr2 in H as (y & ? & ?). exists y. split; [by apply M_alt_r|done].
  - eapply rep_sound in H; [done|done|lia].
  - apply IHr in H as (y & ? & ?). eexists. split; [by apply M_group|done].
  - destruct (pos x =? 0) eqn:E; [|done]. apply Nat.eqb_eq in E.
    exists x. split; [by constructor|done].
  - destruct (rest x) eqn:E; [|done]. exists x. split; [by constructor|done].
Qed.


(** ** The matcher is complete *)

Lemma rep_cong mr gs g :
  (∀ x c1 c2, agree_from x c1 c2 → mr x c1 = mr x c2) →
  ∀ fuel min max x c1 c2, agree_from x c1 c2 →
    rep mr gs g c1 fuel min max x = rep mr gs g c2 fuel min max x.
Proof.
  intros Hr. induction fuel as [|fuel IH]; intros min max x c1 c2 Hc.
  - simpl. rewrite (Hc x [] (consumed_refl x)). done.
  - assert (c1 x = c2 x) as Hx by apply (Hc x [] (consumed_refl x)).
    cbn [rep]. rewrite Hx.
    erewrite (Hr (clear_caps gs x)); [reflexivity|].
    intros y seg Hy. destruct (_ && _); [done|].
    apply IH. intros y' seg' Hy'.
    apply (Hc y' (seg ++ seg')). eapply consumed_trans; [|done].
    destruct Hy; split; done.
Qed.

Lemma m_cong r : ∀ x c1 c2, agree_from x c1 c2 → m r x c1 = m r x c2.
Proof.
  induction r; intros x c1 c2 Hc; cbn [m].
  - apply (Hc x [] (consumed_refl x)).
  - destruct (rest x) as [|a t] eqn:E; [done|].
    destruct (cls_mem k a); [|done].
    apply (Hc _ [a]). split; simpl; [done|lia].
  - apply IHr1. intros y seg Hy. apply IHr2. intros y' seg' Hy'.
    apply (Hc y' (seg ++ seg')). by eapply consumed_trans.
  - by rewrite (IHr1 x c1 c2), (IHr2 x c1 c2).
  - by apply rep_cong.
  - apply IHr. intros y seg [? ?]. apply (Hc _ seg). split; done.
  - destruct (pos x =? 0); [|done]. apply (Hc x [] (consumed_refl x)).
  - destruct (rest x); [|done]. apply (Hc x [] (consumed_refl x)).
Qed.

Lemma or_else_None a : or_else a None = a.
Proof. by destruct a. Qed.

Lemma rep_fail mr gs g :
  (∀ x c1 c2, agree_from x c1 c2 → mr x c1 = mr x c2) →
  (∀ x, mr x (λ _, None) = None) →
  ∀ fuel min max x, rep mr gs g (λ _, None) fuel min max x = None.
Proof.
  intros Hcong Hr. induction fuel as [|fuel IH]; intros min max x.
  - simpl. by destruct max as [[|?]|].
  - cbn [rep].
    rewrite (Hcong (clear_caps gs x) _ (λ _, None)).
    + rewrite Hr. by destruct max as [[|?]|], min, g.
    + intros y seg _. destruct (_ && _); [done|]. apply IH.
Qed.

Lemma m_fail r : ∀ x, m r x (λ _, None) = None.
Proof.
  induction r; intros x; cbn [m].
  - done.
  - destruct (rest x); [done|]. by destruct (cls_mem _ _).
  - rewrite (m_cong r1 x _ (λ _, None)); [done|]. intros y seg _. apply IHr2.
  - by rewrite IHr1, IHr2.
  - apply rep_fail; [apply m_cong | done].
  - apply IHr.
  - by destruct (pos x =? 0).
  - by destruct (rest x).
Qed.

(** The fuel the matcher gives to a quantifier is never exhausted: more fuel
    changes nothing. *)
Lemma rep_fuel r g c :
  ∀ fuel min max x, min + length (rest x) ≤ fuel →
    rep (m r) (groups_in r) g c fuel min max x
    = rep (m r) (groups_in r) g c (min + length (rest x)) min max x.
Proof.
  induction fuel as [fuel IH] using lt_wf_ind. intros min max x Hle.
  destruct fuel as [|f].
  { by replace (min + length (rest x)) with 0 by lia. }
  destruct (min + length (rest x)) as [|n] eqn:EN.
  - assert (min = 0) as -> by lia.
    assert (rest x = []) as Hx by (apply length_zero_iff_nil; lia).
    cbn [rep].
    rewrite (m_cong r (clear_caps (groups_in r) x) _ (λ _, None)).
    + rewrite m_fail. rewrite or_else_None. simpl.
      by destruct max as [[|?]|], g; simpl; destruct (c x).
    + intros y seg [H1 H2]. simpl in H1, H2. rewrite Hx in H1.
      symmetry in H1. apply app_eq_nil in H1 as [-> _]. simpl in H2.
      replace (pos y =? pos x) with true; [done|].
      symmetry. apply Nat.eqb_eq. lia.
  - cbn [rep].
    rewrite (m_cong r (clear_caps (groups_in r) x) 
      (λ y, if (min =? 0) && (pos y =? pos x) then None
            else rep (m r) (groups_in r) g c f (Nat.pred min) (pred_max max) y)
      (λ y, if (min =? 0) && (pos y =? pos x) then None
            else rep (m r) (groups_in r) g c n (Nat.pred min) (pred_max max) y)); [done|].
    intros y seg [H1 H2]. simpl in H1, H2.
    destruct ((min =? 0) && (pos y =? pos x)) eqn:E; [done|].
    assert (Nat.pred min + length (rest y) ≤ n) as Hn.
    { rewrite H1, length_app in EN. destruct min as [|k]; simpl in *; [|lia].
      apply Nat.eqb_neq in E. lia. }
    rewrite (IH f); [|lia|lia]. rewrite (IH n); [done|lia|lia].
Qed.

(** Completeness: a match that the continuation accepts is not missed. *)
Theorem m_complete r x y :
  Matches r x y → ∀ c, is_Some (c y) → is_Some (m r x c).
Proof.
  induction 1; intros c Hc; cbn [m].
  - done.
  - rewrite H, H0. done.
  - apply IHMatches1, IHMatches2, Hc.
  - apply IHMatches in Hc as [z ->]. by eexists.
  - apply IHMatches in Hc as [z ->]. unfold or_else. destruct (m r1 x c); by eexists.
  - by apply IHMatches.
  - apply Nat.eqb_eq in H. by rewrite H.
  - by rewrite H.
  - destruct (length (rest x)); simpl; destruct max as [[|?]|]; try done;
      destruct g; unfold or_else; destruct Hc as [z ->]; try (by eexists);
      destruct (m r _ _); by eexists.
  - destruct (min + length (rest x)); done.
  - apply Matches_consumed in H0 as Hcons. destruct Hcons as [seg [Hs1 Hs2]].
    simpl in Hs1, Hs2.
    assert (is_Some (m r (clear_caps (groups_in r) x)
      (λ y0, if (min =? 0) && (pos y0 =? pos x) then None
            else rep (m r) (groups_in r) g c (Nat.pred (min + length (rest x)))
                   (Nat.pred min) (pred_max max) y0))) as Hiter.
    { apply IHMatches1.
      destruct ((min =? 0) && (pos y =? pos x)) eqn:E.
      { apply andb_true_iff in E as [E1 E2].
        apply Nat.eqb_eq in E1, E2. by destruct (H1 E1). }
      rewrite rep_fuel.
      - apply (IHMatches2 c Hc).
      - rewrite Hs1, length_app. destruct min; simpl in *; [|lia].
        apply Nat.eqb_neq in E. lia. }
    assert (∃ n, min + length (rest x) = S n) as [n En].
    { destruct min; [|eexists; simpl; done].
      specialize (H1 eq_refl). rewrite Hs1, length_app.
      destruct seg; simpl in *; [lia|by eexists]. }
    rewrite En in *. simpl in Hiter. cbn [rep].
    destruct max as [[|k]|]; [done| |]; destruct min; try done;
      destruct g; unfold or_else; destruct Hiter as [? ->]; try (by eexists);
      destruct (c x); by eexists.
Qed.


(** ** Literal runs, character classes, attempts and scans *)

Lemma state_eq x y :
  pos x = pos y → rest x = rest y → caps x = caps y → x = y.
Proof. destruct x, y; simpl; congruence. Qed.

Lemma isPrefixOf_app p s : isPrefixOf p s = true ↔ ∃ t, s = p ++ t.
Proof.
  revert s. induction p as [|a p IH]; intros s; simpl.
  - split; [by exists s|done].
  - destruct s as [|b s]; [split; [done|by intros [? ?]]|].
    rewrite andb_true_iff, N.eqb_eq, IH. split.
    + intros [-> [t ->]]. by exists t.
    + intros [t [= -> ->]]. split; [done|by exists t].
Qed.

(** *** Literal runs *)
Lemma Matches_lit_inv s x y :
  Matches (RLit s) x y →
  rest x = s ++ rest y ∧ pos y = pos x + length s ∧ caps y = caps x.
Proof.
  revert x. induction s as [|a s IH]; intros x H; simpl in H.
  - inversion H; subst. simpl. split_and!; [done|lia|done].
  - inversion H as [| |? ? ? x1 ? H1 H2| | | | | | | |]; subst.
    inversion H1 as [|? ? b t Hx Hb| | | | | | | | |]; subst.
    apply IH in H2 as (Hr & Hp & Hc). simpl in *.
    apply N.eqb_eq in Hb as ->.
    rewrite Hx, Hr. split_and!; [done|lia|done].
Qed.

Lemma Matches_lit_intro s x y :
  rest x = s ++ rest y → pos y = pos x + length s → caps y = caps x →
  Matches (RLit s) x y.
Proof.
  revert x. induction s as [|a s IH]; intros x Hr Hp Hc; simpl in *.
  - replace y with x; [constructor|]. apply state_eq; [lia|done..].
  - apply M_seq with (advance x (s ++ rest y)).
    + apply (M_class _ x a); [done|]. simpl. apply N.eqb_refl.
    + apply IH; simpl; [done|lia|done].
Qed.

(** *** A quantified character class *)
Lemma Matches_quant_class_inv min max g k x y :
  wfq min max →
  Matches (RQuant min max g (RClass k)) x y →
  ∃ seg, rest x = seg ++ rest y ∧ pos y = pos x + length seg ∧
         caps y = caps x ∧ forallb (cls_mem k) seg = true ∧
         min ≤ length seg ∧ (∀ n, max = Some n → length seg ≤ n).
Proof.
  intros Hwf H. remember (RQuant min max g (RClass k)) as q eqn:Eq.
  revert min max Hwf Eq.
  induction H as [| | | | | | | |max' g' r' x|min' g' r' x
                 |min' max' g' r' x y z Hmax Hit _ Hprog Hrest IH];
    intros min max Hwf Eq; try discriminate; injection Eq as ? ? ? ?; subst.
  - exists []. simpl. split_and!; try done; try lia; intros; lia.
  - exists []. simpl. specialize (Hwf 0 eq_refl).
    split_and!; try done; try lia; intros; lia.
  - inversion Hit as [|? ? a t Hx Ha| | | | | | | | |]; subst. simpl in Hx.
    destruct (IH (Nat.pred min) (pred_max max)) as (seg & Hr & Hp & Hc & Hall & Hmin & Hmx);
      [|done|].
    { intros n Hn. destruct max as [mx|]; [|done]. injection Hn as <-.
      specialize (Hwf mx eq_refl). lia. }
    exists (a :: seg). simpl in *. rewrite Hx, Hr, Ha, Hall.
    split_and!; try done; try lia; [].
    intros n ->. specialize (Hmx (Nat.pred n) eq_refl).
    destruct n; [done|]. simpl in Hmx. lia.
Qed.

Lemma Matches_quant_class_intro min max g k seg : ∀ x y,
  rest x = seg ++ rest y → pos y = pos x + length seg → caps y = caps x →
  forallb (cls_mem k) seg = true → min ≤ length seg →
  (∀ n, max = Some n → length seg ≤ n) →
  Matches (RQuant min max g (RClass k)) x y.
Proof.
  revert min max. induction seg as [|a seg IH]; intros min max x y Hr Hp Hc Hall Hmin Hmax;
    simpl in *.
  - assert (min = 0) as -> by lia. replace y with x; [constructor|].
    apply state_eq; [lia|done..].
  - apply andb_true_iff in Hall as [Ha Hall].
    apply M_quant_iter with (advance x (seg ++ rest y)).
    + intros ->. specialize (Hmax 0 eq_refl). lia.
    + apply (M_class k (clear_caps [] x) a); done.
    + simpl. lia.
    + apply IH; simpl; try done; [lia|lia|].
      intros n Hn. destruct max as [mx|]; [|done]. injection Hn as <-.
      specialize (Hmax mx eq_refl). lia.
Qed.

(** *** Attempts and scans *)
Lemma exec_at_sound r input i res :
  exec_at r input i = Some res →
  ∃ y, Matches r (init r input i) y ∧ res = result_of i input y.
Proof.
  unfold exec_at. intros H.
  destruct (m r _ Some) as [z|] eqn:E; [|done].
  apply m_sound in E as (y & Hy & Hz). simplify_eq. by eexists.
Qed.

Lemma exec_at_complete r input i y :
  Matches r (init r input i) y → is_Some (exec_at r input i).
Proof.
  intros H. apply m_complete with (c := Some) in H; [|done].
  unfold exec_at. destruct H as [z Hz]. unfold init in Hz. by rewrite Hz.
Qed.

Lemma scan_Some r input fuel : ∀ i res,
  scan r input fuel i = Some res →
  ∃ j, i ≤ j ≤ i + fuel ∧ exec_at r input j = Some res ∧
       ∀ k, i ≤ k < j → exec_at r input k = None.
Proof.
  induction fuel as [|fuel IH]; intros i res H; simpl in H.
  - destruct (exec_at r input i) eqn:E; [|done]. exists i.
    split_and!; [lia|lia|congruence|intros; lia].
  - destruct (exec_at r input i) eqn:E.
    + exists i. split_and!; [lia|lia|congruence|intros; lia].
    + apply IH in H as (j & Hj & He & Hk). exists j. split_and!; [lia|lia|done|].
      intros k Hki. destruct (decide (k = i)) as [->|]; [done|]. apply Hk. lia.
Qed.

Lemma scan_first r input fuel : ∀ i j res,
  i ≤ j ≤ i + fuel → exec_at r input j = Some res →
  (∀ k, i ≤ k < j → exec_at r input k = None) →
  scan r input fuel i = Some res.
Proof.
  induction fuel as [|fuel IH]; intros i j res Hj He Hk.
  - assert (j = i) as -> by lia. simpl. by rewrite He.
  - simpl. destruct (decide (j = i)) as [->|Hne]; [by rewrite He|].
    rewrite Hk by lia. apply (IH _ j); [lia|done|]. intros; apply Hk; lia.
Qed.

Lemma scan_None r input fuel : ∀ i,
  (∀ k, i ≤ k ≤ i + fuel → exec_at r input k = None) →
  scan r input fuel i = None.
Proof.
  induction fuel as [|fuel IH]; intros i Hk; simpl.
  - by rewrite Hk by lia.
  - rewrite Hk by lia. apply IH. intros; apply Hk; lia.
Qed.

Lemma regexp_exec_Some r input li res :
  regexp_exec r input li = Some res →
  ∃ j, li ≤ j ≤ length input ∧ exec_at r input j = Some res ∧
       ∀ k, li ≤ k < j → exec_at r input k = None.
Proof.
  unfold regexp_exec. destruct (length input <? li) eqn:E; [done|].
  apply Nat.ltb_ge in E. intros H. apply scan_Some in H as (j & ? & ? & ?).
  exists j. split_and!; [lia|lia|done|done].
Qed.

Lemma regexp_exec_first r input li j res :
  li ≤ j ≤ length input → exec_at r input j = Some res →
  (∀ k, li ≤ k < j → exec_at r input k = None) →
  regexp_exec r input li = Some res.
Proof.
  intros Hj He Hk. unfold regexp_exec.
  replace (length input <? li) with false by (symmetry; apply Nat.ltb_ge; lia).
  apply (scan_first _ _ _ _ j); [lia|done|done].
Qed.

Lemma regexp_exec_None r input li :
  (∀ k, li ≤ k ≤ length input → exec_at r input k = None) →
  regexp_exec r input li = None.
Proof.
  intros Hk. unfold regexp_exec. destruct (length input <? li) eqn:E; [done|].
  apply Nat.ltb_ge in E. apply scan_None. intros; apply Hk; lia.
Qed.


(** ** The entity decoder *)

Lemma m_lit s : ∀ x c,
  m (RLit s) x c = if isPrefixOf s (rest x) then c (skip_by (length s) x) else None.
Proof.
  induction s as [|a s IH]; intros x c; simpl.
  - f_equal. apply state_eq; simpl; [lia|done..].
  - destruct (rest x) as [|b t] eqn:E; [done|].
    destruct (a =? b)%N eqn:Eab; simpl; [|done].
    rewrite IH. simpl. destruct (isPrefixOf s t); [|done].
    f_equal. apply state_eq; simpl; [lia|by rewrite E|done].
Qed.

Lemma isPrefixOf_take p s : isPrefixOf p s = true → take (length p) s = p.
Proof.
  intros [t ->]%isPrefixOf_app. by rewrite take_app_length.
Qed.

Local Ltac entity_case E :=
  apply isPrefixOf_take in E;
  cbn -[lit take drop length]; rewrite Nat.add_sub', E; reflexivity.

Lemma exec_at_entity input i :
  exec_at entityRegex input i =
  match entity_at (drop i input) with
  | Some (key, _) => Some (MatchResult i (i + length key) [Some key])
  | None => None
  end.
Proof.
  unfold exec_at.
  change (replicate (S (ngroups entityRegex)) None) with [@None str].
  unfold entityRegex, RStr, entity_at, entities.
  cbn [m entity_in]. rewrite !m_lit. cbn [rest].
  set (s := drop i input).
  destruct (isPrefixOf (lit "&#039;") s) eqn:E1; [entity_case E1|].
  destruct (isPrefixOf (lit "&amp;") s) eqn:E2; [entity_case E2|].
  destruct (isPrefixOf (lit "&lt;") s) eqn:E3; [entity_case E3|].
  destruct (isPrefixOf (lit "&gt;") s) eqn:E4; [entity_case E4|].
  destruct (isPrefixOf (lit "&quot;") s) eqn:E5; [entity_case E5|].
  reflexivity.
Qed.

Lemma entity_in_spec tbl s key ch :
  entity_in tbl s = Some (key, ch) → (key, ch) ∈ tbl ∧ isPrefixOf key s = true.
Proof.
  induction tbl as [|[k v] tbl IH]; simpl; [done|].
  destruct (isPrefixOf k s) eqn:E.
  - intros [= -> ->]. split; [left|done].
  - intros H. apply IH in H as [? ?]. split; [by right|done].
Qed.

Lemma entity_at_entry s key ch :
  entity_at s = Some (key, ch) →
  isPrefixOf key s = true ∧ 4 ≤ length key ∧ length ch = 1 ∧
  entities_get key = Str ch.
Proof.
  intros [Hin Hp]%entity_in_spec. split; [done|].
  unfold entities in Hin.
  repeat (apply elem_of_cons in Hin as [[= -> ->]|Hin];
          [vm_compute; split_and!; (lia || reflexivity)|]).
  by apply elem_of_nil in Hin.
Qed.

Lemma decode_spec_skip k : ∀ s, decode_spec k s = decode_spec 0 (drop k s).
Proof.
  induction k as [|k IH]; intros s; [done|].
  destruct s as [|c t]; [done|]. simpl. apply IH.
Qed.

Lemma decode_spec_entity s key ch :
  entity_at s = Some (key, ch) →
  decode_spec 0 s = ch ++ decode_spec 0 (drop (length key) s).
Proof.
  intros H. pose proof (entity_at_entry _ _ _ H) as (Hp & Hlen & _).
  destruct s as [|c t].
  { apply isPrefixOf_app in Hp as [t Ht]. destruct key; simpl in *; [lia|done]. }
  cbn [decode_spec]. rewrite H. rewrite decode_spec_skip.
  destruct (length key) as [|n]; [lia|]. simpl. by rewrite Nat.sub_0_r.
Qed.

Lemma decode_spec_plain c t :
  entity_at (c :: t) = None → decode_spec 0 (c :: t) = c :: decode_spec 0 t.
Proof. intros H. cbn [decode_spec]. by rewrite H. Qed.

Lemma scan_entity input fuel : ∀ i,
  i + fuel = length input →
  match scan entityRegex input fuel i with
  | None => decode_spec 0 (drop i input) = drop i input
  | Some mt =>
    i ≤ index mt ∧ index mt < end_index mt ≤ length input ∧
    decode_spec 0 (drop i input) =
      take (index mt - i) (drop i input)
      ++ to_string (entities_get
           (take (end_index mt - index mt) (drop (index mt) input)))
      ++ decode_spec 0 (drop (end_index mt) input)
  end.
Proof.
  induction fuel as [|fuel IH]; intros i Hi; cbn [scan];
    rewrite exec_at_entity; destruct (entity_at (drop i input)) as [[key ch]|] eqn:E.
  1,3: pose proof (entity_at_entry _ _ _ E) as (Hp & Hlen & Hch & Hget);
       pose proof (decode_spec_entity _ _ _ E) as Hd;
       pose proof (isPrefixOf_take _ _ Hp) as Htake;
       apply isPrefixOf_app in Hp as [t Ht];
       assert (length (drop i input) = length key + length t) as Hl
         by (by rewrite Ht, length_app);
       rewrite length_drop in Hl;
       cbn [index end_index];
       rewrite Hd, drop_drop, Nat.sub_diag, take_0, Nat.add_sub', Htake, Hget;
       cbn [to_string app]; split_and!; (lia || done).
  - assert (drop i input = []) as Hnil by (apply drop_ge; lia).
    by rewrite Hnil.
  - destruct (drop i input) as [|c t] eqn:Ed.
    { apply (f_equal length) in Ed. rewrite length_drop in Ed. simpl in Ed. lia. }
    assert (t = drop (S i) input) as Ht.
    { replace (S i) with (i + 1) by lia. by rewrite <- drop_drop, Ed. }
    specialize (IH (S i) ltac:(lia)).
    destruct (scan entityRegex input fuel (S i)) as [mt|].
    + destruct IH as (H1 & H2 & H3). split_and!; [lia|lia|lia|].
      rewrite decode_spec_plain by done. rewrite Ht, H3.
      replace (index mt - i) with (S (index mt - S i)) by lia. done.
    + rewrite decode_spec_plain by done. by rewrite Ht, IH.
Qed.

Lemma replace_entities input : ∀ fuel i acc,
  i ≤ length input → length input - i < fuel →
  replace_loop entityRegex entities_get input fuel i i acc
  = Returned (acc ++ decode_spec 0 (drop i input)).
Proof.
  induction fuel as [|fuel IH]; intros i acc Hi Hfuel; [lia|].
  cbn [replace_loop]. unfold regexp_exec.
  replace (length input <? i) with false by (symmetry; apply Nat.ltb_ge; lia).
  pose proof (scan_entity input (length input - i) i ltac:(lia)) as Hs.
  destruct (scan entityRegex input (length input - i) i) as [mt|].
  - destruct Hs as (H1 & H2 & H3).
    replace (end_index mt =? index mt) with false
      by (symmetry; apply Nat.eqb_neq; lia).
    rewrite IH by lia. rewrite H3. by rewrite <- !app_assoc.
  - by rewrite Hs.
Qed.

Lemma decodeHtmlEntities_spec s :
  decodeHtmlEntities (Str s) = Returned (Str (decode_spec 0 s)).
Proof.
  unfold decodeHtmlEntities, js_replace.
  rewrite replace_entities; [done|lia|lia].
Qed.

(** Text in which no known entity starts anywhere is left as it is. *)
Lemma decode_spec_no_entity s :
  (∀ i, entity_at (drop i s) = None) → decode_spec 0 s = s.
Proof.
  induction s as [|c t IH]; intros Hno; [done|].
  rewrite decode_spec_plain by apply (Hno 0).
  f_equal. apply IH. intros i. apply (Hno (S i)).
Qed.

Lemma decode_spec_nonempty s : s ≠ [] → decode_spec 0 s ≠ [].
Proof.
  destruct s as [|c t]; [done|]. intros _.
  destruct (entity_at (c :: t)) as [[key ch]|] eqn:E.
  - rewrite (decode_spec_entity _ _ _ E).
    apply entity_at_entry in E as (_ & _ & Hch & _).
    destruct ch; simpl in *; [lia|done].
  - by rewrite decode_spec_plain.
Qed.


(** ** The item patterns and the loop body *)

Lemma Matches_seq_inv r1 r2 x z :
  Matches (RSeq r1 r2) x z → ∃ y, Matches r1 x y ∧ Matches r2 y z.
Proof. inversion 1; subst. eauto. Qed.

Lemma Matches_group_inv i r x z :
  Matches (RGroup i r) x z →
  ∃ y, Matches r x y ∧ z = set_cap i (take (pos y - pos x) (rest x)) y.
Proof. inversion 1; subst. eauto. Qed.

Lemma capture_captured mt i s : captured mt i = Some s → capture mt i = Str s.
Proof.
  unfold captured, capture. destruct (groups mt !! i) as [[?|]|]; simpl; congruence.
Qed.

Lemma result_of_captured i input y j :
  j ≠ 0 → captured (result_of i input y) j = mjoin (caps y !! j).
Proof.
  intros Hj. unfold captured, result_of. simpl.
  by rewrite list_lookup_insert_ne by done.
Qed.

(** The patterns [open(cls*?)close]. *)
Lemma Matches_delimited a k b x y :
  Matches (RLit a ⋅ RGroup 1 (lazy_star k) ⋅ RLit b) x y →
  1 < length (caps x) →
  ∃ seg, rest x = a ++ seg ++ b ++ rest y ∧
         pos y = pos x + length a + length seg + length b ∧
         caps y !! 1 = Some (Some seg) ∧
         forallb (cls_mem k) seg = true.
Proof.
  intros H Hlen.
  apply Matches_seq_inv in H as (y2 & H & Hb).
  apply Matches_seq_inv in H as (y1 & Ha & Hg).
  apply Matches_group_inv in Hg as (y3 & Hq & ->).
  apply Matches_lit_inv in Ha as (Ha1 & Ha2 & Ha3).
  apply Matches_lit_inv in Hb as (Hb1 & Hb2 & Hb3).
  apply Matches_quant_class_inv in Hq as (seg & Hq1 & Hq2 & Hq3 & Hq4 & _); [|done].
  simpl in *. exists seg.
  rewrite Hq2, Nat.add_sub', Hq1, take_app_length in Hb3.
  split_and!.
  - by rewrite Ha1, Hq1, Hb1.
  - lia.
  - rewrite Hb3. apply list_lookup_insert_eq. rewrite Hq3, Ha3. done.
  - done.
Qed.

Lemma exec_at_delimited a k b input i res :
  ngroups (RLit a ⋅ RGroup 1 (lazy_star k) ⋅ RLit b) = 1 →
  exec_at (RLit a ⋅ RGroup 1 (lazy_star k) ⋅ RLit b) input i = Some res →
  ∃ seg tail, drop i input = a ++ seg ++ b ++ tail ∧
         index res = i ∧
         end_index res = i + length a + length seg + length b ∧
         captured res 1 = Some seg ∧
         forallb (cls_mem k) seg = true.
Proof.
  intros Hn H. apply exec_at_sound in H as (y & Hy & ->).
  unfold init in Hy. rewrite Hn in Hy.
  apply Matches_delimited in Hy as (seg & H1 & H2 & H3 & H4); [|simpl; lia].
  exists seg, (rest y). split_and!; try done.
  rewrite result_of_captured by done. by rewrite H3.
Qed.

Lemma regexp_exec_delimited a k b input li res :
  ngroups (RLit a ⋅ RGroup 1 (lazy_star k) ⋅ RLit b) = 1 →
  regexp_exec (RLit a ⋅ RGroup 1 (lazy_star k) ⋅ RLit b) input li = Some res →
  ∃ seg tail, drop (index res) input = a ++ seg ++ b ++ tail ∧
         li ≤ index res ∧
         end_index res = index res + length a + length seg + length b ∧
         end_index res ≤ length input ∧
         captured res 1 = Some seg ∧
         forallb (cls_mem k) seg = true.
Proof.
  intros Hn H. apply regexp_exec_Some in H as (j & Hj & H & _).
  apply exec_at_delimited in H as (seg & tail & H1 & H2 & H3 & H4 & H5); [|done].
  subst j. exists seg, tail. split_and!; try done; [lia|].
  apply (f_equal length) in H1. rewrite length_drop, !length_app in H1. lia.
Qed.

(** [feed_item] never throws: it is the pure function [item_film]. *)
Lemma feed_item_eq item : feed_item (Str item) = Returned (item_film item).
Proof.
  unfold feed_item, item_film, feed_full_title, feed_link, feed_desc.
  cbn [js_match mbind outcome_bind].
  assert (Htitle : ∀ mt, regexp_exec titleCdataRegex item 0 = Some mt ∨
                         regexp_exec titlePlainRegex item 0 = Some mt →
                         ∃ ft, captured mt 1 = Some ft).
  { intros mt [H|H]; apply regexp_exec_delimited in H as (seg & ? & ?); 
      try reflexivity; exists seg; tauto. }
  assert (Hdesc : ∀ mt, regexp_exec descRegex item 0 = Some mt →
                         ∃ d, captured mt 1 = Some d).
  { intros mt H; apply regexp_exec_delimited in H as (seg & ? & ?); 
      try reflexivity; exists seg; tauto. }
  set (tm := match regexp_exec titleCdataRegex item 0 with
             | Some mt => Returned (Some mt)
             | None => Returned (regexp_exec titlePlainRegex item 0)
             end).
  assert (∃ o, tm = Returned o ∧
    match regexp_exec titleCdataRegex item 0 with
    | Some mt => captured mt 1
    | None => match regexp_exec titlePlainRegex item 0 with
              | Some mt => captured mt 1
              | None => None
              end
    end = o ≫= (λ mt, captured mt 1) ∧
    ∀ mt, o = Some mt → ∃ ft, captured mt 1 = Some ft) as (o & -> & -> & Ho).
  { unfold tm. destruct (regexp_exec titleCdataRegex item 0) as [mt|] eqn:E1.
    - exists (Some mt). split_and!; try done. intros ? [= <-]. apply Htitle. by left.
    - destruct (regexp_exec titlePlainRegex item 0) as [mt|] eqn:E2.
      + exists (Some mt). split_and!; try done. intros ? [= <-]. apply Htitle. by right.
      + exists None. done. }
  cbn [mbind outcome_bind].
  destruct o as [mt|]; [|done]. destruct (Ho mt eq_refl) as [ft Hft].
  cbn [mbind option_bind]. rewrite Hft, (capture_captured _ _ _ Hft).
  cbn [js_match mbind outcome_bind]. unfold title_year.
  destruct (regexp_exec descRegex item 0) as [dm|] eqn:Ed.
  - destruct (Hdesc dm eq_refl) as [d Hd].
    rewrite Hd, (capture_captured _ _ _ Hd).
    cbn [js_match js_includes mbind outcome_bind from_option].
    unfold rating_of, watch_date_of.
    by destruct (regexp_exec titleYearRegex ft 0).
  - cbn [mbind outcome_bind from_option].
    by destruct (regexp_exec titleYearRegex ft 0).
Qed.


(** ** The title and year pattern *)

Lemma Matches_start_inv x y : Matches RStart x y → y = x ∧ pos x = 0.
Proof. by inversion 1. Qed.

Lemma Matches_end_inv x y : Matches REnd x y → y = x ∧ rest x = [].
Proof. by inversion 1. Qed.

Lemma Matches_titleYear_inv x y :
  Matches titleYearRegex x y → 2 < length (caps x) →
  pos x = 0 ∧ rest y = [] ∧
  ∃ text ws d, splits_as (rest x) text ws d ∧
    forallb (cls_mem CDot) text = true ∧
    caps y !! 1 = Some (Some text) ∧ caps y !! 2 = Some (Some d).
Proof.
  intros H Hlen. unfold titleYearRegex in H.
  apply Matches_seq_inv in H as (y5 & H & [-> He]%Matches_end_inv).
  apply Matches_seq_inv in H as (y4 & H & Hg2).
  apply Matches_seq_inv in H as (y3 & H & Hws).
  apply Matches_seq_inv in H as (y2 & H & Hc).
  apply Matches_seq_inv in H as (y1 & [-> H0]%Matches_start_inv & Hg1).
  apply Matches_group_inv in Hg1 as (z1 & Hq1 & ->).
  apply Matches_group_inv in Hg2 as (z2 & Hq2 & ->).
  apply Matches_quant_class_inv in Hq1 as (text & Ht1 & Ht2 & Ht3 & Ht4 & Ht5 & _);
    [|done].
  apply Matches_lit_inv in Hc as (Hc1 & Hc2 & Hc3).
  apply Matches_quant_class_inv in Hws as (ws & Hw1 & Hw2 & Hw3 & Hw4 & _);
    [|done].
  apply Matches_quant_class_inv in Hq2 as (d & Hd1 & Hd2 & Hd3 & Hd4 & Hd5 & Hd6);
    [|by intros ? [= <-]].
  specialize (Hd6 4 eq_refl). simpl in *.
  rewrite Ht2, Nat.add_sub', Ht1, take_app_length in Hc3.
  rewrite Hd2, Nat.add_sub', Hd1, take_app_length.
  split_and!; [done|done|]. exists text, ws, d. split_and!.
  - split_and!; try done.
    + rewrite Ht1, Hc1, Hw1, Hd1, He. by rewrite app_nil_r.
    + intros ->. simpl in Ht5. lia.
    + lia.
  - done.
  - rewrite list_lookup_insert_ne by done. rewrite Hd3, Hw3, Hc3.
    apply list_lookup_insert_eq. rewrite Ht3. lia.
  - apply list_lookup_insert_eq. rewrite Hd3, Hw3, Hc3, length_insert, Ht3. lia.
Qed.

Lemma Matches_titleYear_intro x text ws d :
  pos x = 0 → splits_as (rest x) text ws d →
  forallb (cls_mem CDot) text = true →
  ∃ y, Matches titleYearRegex x y.
Proof.
  intros Hp (Hs & Hne & Hws & Hlen & Hd) Hdot.
  set (c1 := <[1 := Some text]> (caps x)).
  set (c2 := <[2 := Some d]> c1).
  exists (State (length text + 1 + length ws + 4) [] c2).
  unfold titleYearRegex.
  apply M_seq with (State (length text + 1 + length ws + 4) [] c2);
    [|by apply M_end].
  apply M_seq with (State (length text + 1 + length ws) d c1).
  apply M_seq with (State (length text + 1) (ws ++ d) c1).
  apply M_seq with (State (length text) (lit "," ++ ws ++ d) c1).
  apply M_seq with x.
  - by apply M_start.
  - replace (State (length text) (lit "," ++ ws ++ d) c1)
      with (set_cap 1 (take (pos (State (length text) (lit "," ++ ws ++ d) (caps x)) - pos x)
                         (rest x))
              (State (length text) (lit "," ++ ws ++ d) (caps x))).
    + apply M_group. apply Matches_quant_class_intro with text; simpl; try done.
      * lia.
      * destruct text; simpl; [done|lia].
    + unfold set_cap, c1. simpl. rewrite Hp, Nat.sub_0_r, Hs, take_app_length. done.
  - apply Matches_lit_intro; simpl; [done|lia|done].
  - apply Matches_quant_class_intro with ws; simpl; try done; lia.
  - replace (State (length text + 1 + length ws + 4) [] c2)
      with (set_cap 2 (take (pos (State (length text + 1 + length ws + 4) [] c1)
                              - pos (State (length text + 1 + length ws) d c1))
                         (rest (State (length text + 1 + length ws) d c1)))
              (State (length text + 1 + length ws + 4) [] c1)).
    + apply M_group. apply Matches_quant_class_intro with d; simpl; try done.
      * by rewrite app_nil_r.
      * lia.
      * lia.
      * intros ? [= <-]. lia.
    + unfold set_cap, c2. simpl. rewrite Nat.add_sub', <- Hlen, take_ge by lia. done.
Qed.

Lemma last_occurrence_unique (c : N) l1 : ∀ l2 w1 w2,
  l1 ++ c :: w1 = l2 ++ c :: w2 → c ∉ w1 → c ∉ w2 → l1 = l2 ∧ w1 = w2.
Proof.
  induction l1 as [|a l1 IH]; intros [|b l2] w1 w2 H H1 H2; simpl in H.
  - by injection H as ->.
  - injection H as <- ->. exfalso. apply H1, elem_of_app. right. by left.
  - injection H as -> <-. exfalso. apply H2, elem_of_app. right. by left.
  - injection H as -> H. apply IH in H as [-> ->]; done.
Qed.

Lemma space_no_comma ws : forallb is_space ws = true → 44%N ∉ ws.
Proof.
  induction ws as [|a ws IH]; simpl; [intros _; apply not_elem_of_nil|].
  intros [Ha Hws]%andb_true_iff. apply not_elem_of_cons. split; [|by apply IH].
  intros <-. done.
Qed.

Lemma splits_as_unique s text ws d text' ws' d' :
  splits_as s text ws d → splits_as s text' ws' d' →
  text = text' ∧ ws = ws' ∧ d = d'.
Proof.
  intros (-> & _ & Hws & Hlen & _) (Hs & _ & Hws' & Hlen' & _).
  change (lit ",") with [44%N] in *. simpl in Hs.
  replace (text ++ 44%N :: ws ++ d) with ((text ++ 44%N :: ws) ++ d) in Hs
    by (by rewrite <- app_assoc).
  replace (text' ++ 44%N :: ws' ++ d') with ((text' ++ 44%N :: ws') ++ d') in Hs
    by (by rewrite <- app_assoc).
  apply app_inj_2 in Hs as [Hs ->]; [|lia].
  apply last_occurrence_unique in Hs as [-> ->]; auto using space_no_comma.
Qed.

Lemma ngroups_titleYear : ngroups titleYearRegex = 2.
Proof. reflexivity. Qed.

Lemma title_year_split ft text ws d :
  splits_as ft text ws d → forallb (cls_mem CDot) text = true →
  title_year ft = (Str text, Str d).
Proof.
  intros Hs Hdot.
  destruct (Matches_titleYear_intro (init titleYearRegex ft 0) text ws d)
    as [y Hy]; [done|done|done|].
  destruct (exec_at_complete _ _ _ _ Hy) as [res Hres].
  pose proof Hres as Hres'.
  apply exec_at_sound in Hres' as (y' & Hy' & ->).
  apply Matches_titleYear_inv in Hy' as (_ & _ & text' & ws' & d' & Hs' & _ & H1 & H2);
    [|simpl; lia].
  destruct (splits_as_unique _ _ _ _ _ _ _ Hs Hs') as (<- & <- & <-).
  unfold title_year.
  rewrite (regexp_exec_first _ _ 0 0 _ ltac:(lia) Hres) by (intros; lia).
  f_equal; apply capture_captured; rewrite result_of_captured by done.
  - by rewrite H1.
  - by rewrite H2.
Qed.

Lemma title_year_whole ft :
  (∀ text ws d, ¬ splits_as ft text ws d) →
  title_year ft = (Str ft, Null).
Proof.
  intros Hno. unfold title_year.
  rewrite regexp_exec_None; [done|].
  intros k Hk. destruct (exec_at titleYearRegex ft k) as [res|] eqn:E; [|done].
  exfalso. apply exec_at_sound in E as (y & Hy & _).
  apply Matches_titleYear_inv in Hy as (Hp & _ & text & ws & d & Hs & _);
    [|simpl; lia].
  simpl in Hp. subst k. by apply (Hno text ws d).
Qed.


(** ** The rating pattern *)

(** A greedy quantifier over a character class takes the whole run when the
    continuation accepts there. *)
Lemma rep_greedy_run k c seg : ∀ x fuel min t,
  rest x = seg ++ t → forallb (cls_mem k) seg = true →
  match t with [] => True | a :: _ => cls_mem k a = false end →
  min ≤ length seg → length seg ≤ fuel →
  is_Some (c (skip_by (length seg) x)) →
  rep (m (RClass k)) [] true c fuel min None x = c (skip_by (length seg) x).
Proof.
  induction seg as [|a seg IH]; intros x fuel min t Hr Hall Ht Hmin Hfuel Hc;
    cbn [length app forallb] in *.
  - assert (min = 0) as -> by lia.
    replace (skip_by 0 x) with x in * by (apply state_eq; simpl; [lia|done..]).
    destruct fuel; [done|]. cbn [rep m]. unfold clear_caps.
    cbn [foldr pos rest caps]. rewrite Hr. destruct t as [|b t]; [by destruct (c x)|].
    rewrite Ht. by destruct (c x).
  - apply andb_true_iff in Hall as [Ha Hall].
    destruct fuel as [|fuel]; [lia|]. cbn [rep m]. unfold clear_caps.
    cbn [foldr pos rest caps]. rewrite Hr, Ha. unfold advance.
    cbn [pos rest caps].
    replace (S (pos x) =? pos x) with false by (symmetry; apply Nat.eqb_neq; lia).
    rewrite andb_false_r. cbn [pred_max fmap option_fmap option_map].
    rewrite (IH _ fuel (Nat.pred min) t); simpl; try done; try lia.
    + replace (skip_by (length seg) (State (S (pos x)) (seg ++ t) (caps x)))
        with (skip_by (S (length seg)) x) in *.
      * destruct Hc as [z Hz]. rewrite Hz. by destruct min.
      * apply state_eq; simpl; [lia|by rewrite Hr|done].
    + replace (skip_by (length seg) (State (S (pos x)) (seg ++ t) (caps x)))
        with (skip_by (S (length seg)) x); [done|].
      apply state_eq; simpl; [lia|by rewrite Hr|done].
Qed.

Lemma m_opt_char h y :
  m (opt (CChar h)) y Some =
  Some match rest y with
       | a :: t => if N.eqb h a then advance y t else y
       | [] => y
       end.
Proof.
  unfold opt. cbn [m groups_in]. destruct (rest y) as [|a t] eqn:E.
  - done.
  - cbn [length Nat.add rep]. cbn [m cls_mem]. unfold clear_caps.
    cbn [foldr rest pos caps]. rewrite E.
    destruct (h =? a)%N; [|done].
    unfold advance. cbn [pos rest caps].
    replace (S (pos y) =? pos y) with false
      by (symmetry; apply Nat.eqb_neq; lia).
    rewrite andb_false_r.
    cbn [pred_max fmap option_fmap option_map Nat.pred].
    by destruct (length t).
Qed.

Lemma m_seq r1 r2 x c : m (RSeq r1 r2) x c = m r1 x (λ y, m r2 y c).
Proof. done. Qed.

Lemma m_quant min max g r x c :
  m (RQuant min max g r) x c
  = rep (m r) (groups_in r) g c (min + length (rest x)) min max x.
Proof. done. Qed.

Lemma half_suffix_prefix tail : ∃ t', tail = half_suffix tail ++ t'.
Proof.
  unfold half_suffix. destruct (isPrefixOf [half_char] tail) eqn:E.
  - by apply isPrefixOf_app in E.
  - by exists tail.
Qed.

Lemma exec_at_rating pre n tail :
  isPrefixOf [star_char] tail = false →
  exec_at ratingRegex (pre ++ replicate (S n) star_char ++ tail) (length pre)
  = Some (MatchResult (length pre)
            (length pre + S n + length (half_suffix tail))
            [Some (replicate (S n) star_char ++ half_suffix tail)]).
Proof.
  intros Htail. unfold exec_at.
  change (replicate (S (ngroups ratingRegex)) None) with [@None str].
  rewrite drop_app_length. unfold ratingRegex, plus.
  rewrite m_seq, m_quant. cbn [groups_in rest].
  set (stars := replicate (S n) star_char).
  assert (length stars = S n) as Hlen by apply length_replicate.
  set (x := State (length pre) (stars ++ tail) [None]).
  assert (Hskip : skip_by (length stars) x
                  = State (length pre + S n) tail [None]).
  { apply state_eq; cbn [skip_by x pos rest caps]; [lia| |done].
    by rewrite drop_app_length. }
  rewrite (rep_greedy_run _ _ stars x _ 1 tail).
  - rewrite Hskip, m_opt_char. cbn [rest].
    set (y := match tail with
              | [] => _
              | a :: t => _
              end).
    assert (pos y = length pre + S n + length (half_suffix tail)
            ∧ caps y = [None]) as [Hp Hc].
    { unfold y, half_suffix. destruct tail as [|a t]; cbn [isPrefixOf].
      - cbn [pos caps length]. split; [lia|done].
      - destruct (half_char =? a)%N;
          cbn [andb advance pos caps length]; split; (lia || done). }
    rewrite Hp, Hc. do 2 f_equal.
    replace (length pre + S n + length (half_suffix tail) - length pre)
      with (length (stars ++ half_suffix tail))
      by (rewrite length_app; lia).
    destruct (half_suffix_prefix tail) as [t' Ht'].
    replace (stars ++ tail) with ((stars ++ half_suffix tail) ++ t')
      by (by rewrite <- app_assoc, <- Ht').
    by rewrite take_app_length.
  - done.
  - apply forallb_forall. intros c Hc%list_elem_of_In%elem_of_replicate.
    destruct Hc as [-> _]. done.
  - destruct tail as [|a t]; [done|]. cbn [isPrefixOf cls_mem] in Htail |- *.
    by rewrite andb_true_r in Htail.
  - lia.
  - cbn [x rest]. rewrite length_app. lia.
  - rewrite Hskip, m_opt_char. done.
Qed.

Lemma exec_at_rating_sound desc k res :
  exec_at ratingRegex desc k = Some res →
  isPrefixOf [star_char] (drop k desc) = true.
Proof.
  intros H. apply exec_at_sound in H as (y & Hy & _).
  apply Matches_seq_inv in Hy as (y1 & Hq & _).
  apply Matches_quant_class_inv in Hq as (seg & Hr & _ & _ & Hall & Hmin & _);
    [|done].
  simpl in Hr. rewrite Hr. destruct seg as [|a seg]; simpl in *; [lia|].
  apply andb_true_iff in Hall as [-> _]. done.
Qed.

Lemma rating_absent desc : star_char ∉ desc → rating_of desc = Null.
Proof.
  intros Hno. unfold rating_of. rewrite regexp_exec_None; [done|].
  intros k _. destruct (exec_at ratingRegex desc k) eqn:E; [|done].
  exfalso. apply exec_at_rating_sound in E.
  apply isPrefixOf_app in E as [t Ht]. apply Hno.
  rewrite <- (take_drop k desc), Ht. apply elem_of_app. right. by left.
Qed.

Lemma rating_found pre n tail :
  star_char ∉ pre → isPrefixOf [star_char] tail = false →
  rating_of (pre ++ replicate (S n) star_char ++ tail)
  = Str (replicate (S n) star_char ++ half_suffix tail).
Proof.
  intros Hpre Htail. unfold rating_of.
  assert (0 ≤ length pre ≤ length (pre ++ replicate (S n) star_char ++ tail))
    as Hb by (rewrite length_app; lia).
  rewrite (regexp_exec_first _ _ 0 (length pre) _ Hb
             (exec_at_rating pre n tail Htail)); [done|].
  intros k Hk. destruct (exec_at ratingRegex _ k) eqn:E; [|done].
  exfalso. apply exec_at_rating_sound in E.
  apply isPrefixOf_app in E as [t Ht]. apply Hpre.
  rewrite drop_app_le in Ht by lia.
  destruct (drop k pre) as [|a l] eqn:Ed.
  { apply (f_equal length) in Ed. rewrite length_drop in Ed. simpl in Ed. lia. }
  simpl in Ht. injection Ht as <- _.
  rewrite <- (take_drop k pre), Ed. apply elem_of_app. right. by left.
Qed.


(** ** The parsing loops *)

Lemma feed_loop_eq xml : ∀ fuel li films,
  li ≤ length xml → length xml - li < fuel →
  feed_loop xml fuel li films
  = Returned (films ++ omap item_film
                (omap (λ mt, captured mt 1) (all_matches itemRegex xml fuel li))).
Proof.
  induction fuel as [|fuel IH]; intros li films Hli Hfuel; [lia|].
  cbn [feed_loop all_matches].
  destruct (regexp_exec itemRegex xml li) as [mt|] eqn:E.
  - apply regexp_exec_delimited in E as (item & tail & _ & H1 & H2 & H3 & H4 & _);
      [|reflexivity].
    change (length (lit "<item>")) with 6 in H2.
    change (length (lit "</item>")) with 7 in H2.
    rewrite (capture_captured _ _ _ H4), feed_item_eq.
    cbn [mbind outcome_bind omap list_omap]. rewrite H4. cbn [omap list_omap].
    rewrite IH by lia.
    destruct (item_film item); [by rewrite <- app_assoc|done].
  - by rewrite app_nil_r.
Qed.

Theorem parseFeed_eq xml :
  parseFeed xml = Returned (omap item_film (feed_items xml)).
Proof. unfold parseFeed. rewrite feed_loop_eq; [done|lia|lia]. Qed.

Lemma exec_at_bounds r input i res :
  exec_at r input i = Some res → i ≤ length input →
  index res = i ∧ i ≤ end_index res ≤ length input.
Proof.
  intros H Hi. apply exec_at_sound in H as (y & Hy & ->).
  apply Matches_consumed in Hy as (seg & Hr & Hp). simpl in *.
  apply (f_equal length) in Hr. rewrite length_drop, length_app in Hr.
  split; [done|lia].
Qed.

Lemma exec_at_filmPattern html i res :
  exec_at filmPattern html i = Some res →
  i < end_index res ∧ ∃ t, captured res 2 = Some t ∧ t ≠ [].
Proof.
  intros H. apply exec_at_sound in H as (y & Hy & ->).
  unfold filmPattern in Hy.
  apply Matches_seq_inv in Hy as (y1 & Hy & Hq).
  apply Matches_seq_inv in Hy as (y2 & Hbig & Hg).
  apply Matches_group_inv in Hg as (z & Hplus & ->).
  apply Matches_lit_inv in Hq as (Hq1 & Hq2 & Hq3).
  apply Matches_quant_class_inv in Hplus as (t & Ht1 & Ht2 & Ht3 & _ & Ht5 & _);
    [|done].
  pose proof (Matches_caps_length _ _ _ Hbig) as Hlen.
  apply Matches_consumed in Hbig as (seg & _ & Hp).
  simpl in *. split; [lia|]. exists t.
  rewrite result_of_captured by done.
  rewrite Hq3, Ht2, Nat.add_sub', Ht1, take_app_length.
  rewrite list_lookup_insert_eq by (rewrite Ht3, Hlen; lia).
  split; [done|]. intros ->. simpl in Ht5. lia.
Qed.

Lemma regexp_exec_filmPattern html li res :
  regexp_exec filmPattern html li = Some res →
  li < end_index res ≤ length html ∧ ∃ t, captured res 2 = Some t ∧ t ≠ [].
Proof.
  intros H. apply regexp_exec_Some in H as (j & Hj & H & _).
  pose proof (exec_at_bounds _ _ _ _ H ltac:(lia)) as (_ & Hb).
  apply exec_at_filmPattern in H as (? & ?). split; [lia|done].
Qed.

Lemma parseFilmsPage_loop_eq html : ∀ fuel li films,
  li ≤ length html → length html - li < fuel →
  parseFilmsPage_loop html fuel li films
  = Returned (films ++ (listing_film <$> all_matches filmPattern html fuel li)).
Proof.
  induction fuel as [|fuel IH]; intros li films Hli Hfuel; [lia|].
  cbn [parseFilmsPage_loop all_matches].
  destruct (regexp_exec filmPattern html li) as [mt|] eqn:E.
  - apply regexp_exec_filmPattern in E as (Hb & t & Ht & _).
    rewrite (capture_captured _ _ _ Ht), decodeHtmlEntities_spec.
    cbn [mbind outcome_bind]. rewrite IH by lia.
    rewrite fmap_cons, <- app_assoc. unfold listing_film. rewrite Ht. done.
  - by rewrite app_nil_r.
Qed.

Theorem parseFilmsPage_eq html : parseFilmsPage html = Returned (page_films html).
Proof. unfold parseFilmsPage. rewrite parseFilmsPage_loop_eq; [done|lia|lia]. Qed.

Lemma all_matches_filmPattern html : ∀ fuel li mt,
  mt ∈ all_matches filmPattern html fuel li →
  ∃ t, captured mt 2 = Some t ∧ t ≠ [].
Proof.
  induction fuel as [|fuel IH]; intros li mt Hin; simpl in Hin.
  - by apply elem_of_nil in Hin.
  - destruct (regexp_exec filmPattern html li) as [mt'|] eqn:E;
      [|by apply elem_of_nil in Hin].
    apply elem_of_cons in Hin as [->|Hin]; [|by eapply IH].
    by apply regexp_exec_filmPattern in E as [_ ?].
Qed.

Lemma page_films_title html f :
  f ∈ page_films html → ∃ s, title f = Str s ∧ s ≠ [].
Proof.
  unfold page_films. intros (mt & -> & Hin)%list_elem_of_fmap.
  apply all_matches_filmPattern in Hin as (t & Ht & Hne).
  eexists. split; [done|]. rewrite Ht. simpl. by apply decode_spec_nonempty.
Qed.


(** ** The page loop *)

Lemma lit_inj s1 s2 : lit s1 = lit s2 → s1 = s2.
Proof.
  revert s2. induction s1 as [|a s1 IH]; intros [|b s2]; simpl; try done.
  intros [= Hab H]. f_equal; [|by apply IH].
  by rewrite <- (ascii_N_embedding a), Hab, ascii_N_embedding.
Qed.

Lemma to_uint_nonnil n : Nat.to_uint n ≠ Decimal.Nil.
Proof.
  pose proof (Unsigned.to_of (Nat.to_uint n)) as E.
  rewrite Unsigned.of_to in E. rewrite E. apply unorm_nonnil.
Qed.

Lemma number_to_string_inj p q :
  number_to_string p = number_to_string q → p = q.
Proof.
  unfold number_to_string. intros H%lit_inj.
  apply (f_equal NilZero.uint_of_string) in H.
  rewrite !NilZero.usu in H by apply to_uint_nonnil.
  injection H as H. by apply Unsigned.to_uint_inj.
Qed.

Lemma films_url_inj u p q : films_url u p = films_url u q → p = q.
Proof.
  unfold films_url. intros H. repeat apply app_inv_head in H.
  apply app_inv_tail in H. by apply number_to_string_inj.
Qed.

Lemma watchlist_url_inj u p q : watchlist_url u p = watchlist_url u q → p = q.
Proof.
  unfold watchlist_url. intros H. repeat apply app_inv_head in H.
  apply app_inv_tail in H. by apply number_to_string_inj.
Qed.

Lemma films_on_eq r : films_on r = page_films (body r).
Proof. unfold films_on. by rewrite parseFilmsPage_eq. Qed.

(** The loop over a script that starts with [good] pages and then an end
    page: it returns the films of the good pages, has asked for exactly one
    page more than there are good ones, and leaves the rest of the script
    untouched. *)
Lemma page_loop_stop ceiling url_of good : ∀ fuel page films bad later log,
  Forall more_pages good → end_of_pages bad →
  page + length good ≤ ceiling → length good < fuel →
  page_loop ceiling url_of fuel page films (World (good ++ bad :: later) log)
  = (Returned (films ++ concat (films_on <$> good)),
     World later (log ++ (page_request url_of <$> seq page (S (length good))))).
Proof.
  induction good as [|r good IH]; intros fuel page films bad later log Hgood Hbad Hc Hf;
    (destruct fuel as [|fuel]; [simpl in Hf; lia|]); cbn [page_loop].
  - replace (page <=? ceiling) with true
      by (symmetry; apply Nat.leb_le; simpl in Hc; lia).
    cbn [fetch app pending requests].
    rewrite app_nil_r. destruct Hbad as [Hok|Hempty].
    + by rewrite Hok.
    + rewrite Hempty. by destruct (ok bad).
  - inversion Hgood as [|? ? [Hok Hne] Hgood']; subst. simpl in Hc, Hf.
    replace (page <=? ceiling) with true by (symmetry; apply Nat.leb_le; lia).
    cbn [fetch app pending requests]. rewrite Hok. cbn [negb].
    rewrite fmap_cons, films_on_eq. cbn [concat].
    rewrite parseFilmsPage_eq in Hne |- *.
    destruct (page_films (body r)) as [|f fs] eqn:Epf; [done|].
    cbn [length Nat.eqb]. rewrite IH; try done; try lia.
    rewrite Nat.add_1_r. f_equal.
    + f_equal. by rewrite <- app_assoc.
    + f_equal. by rewrite <- app_assoc.
Qed.

(** Whatever the script, the loop asks for consecutive pages from [page] on
    and for none beyond the ceiling. *)
Lemma page_loop_requests ceiling url_of : ∀ fuel page films w,
  ∃ n, page + n ≤ Nat.max page (S ceiling) ∧
       requests (page_loop ceiling url_of fuel page films w).2
       = requests w ++ (page_request url_of <$> seq page n).
Proof.
  induction fuel as [|fuel IH]; intros page films w; cbn [page_loop].
  - exists 0. simpl. split; [lia|by rewrite app_nil_r].
  - destruct (page <=? ceiling) eqn:E.
    + apply Nat.leb_le in E.
      assert (∃ n, page + n ≤ Nat.max page (S ceiling) ∧
                requests w ++ [page_request url_of page]
                = requests w ++ (page_request url_of <$> seq page n)) as Hone.
      { exists 1. split; [lia|done]. }
      unfold fetch. destruct (pending w) as [|r rs]; [done|].
      destruct (ok r); cbn [negb]; [|done].
      destruct (parseFilmsPage (body r)) as [pf| |]; [|done..].
      destruct (length pf =? 0); [done|].
      destruct (IH (page + 1) (films ++ pf)
                  (World rs (requests w ++ [Request (url_of page) userAgent])))
        as (n & Hn & Hreq).
      exists (S n). split; [lia|]. rewrite Hreq. cbn [requests seq fmap list_fmap].
      rewrite Nat.add_1_r, <- app_assoc. done.
    + exists 0. simpl. split; [lia|by rewrite app_nil_r].
Qed.

(** The fuel of the entry points is enough for the loop to end by itself. *)
Lemma page_loop_terminates ceiling url_of : ∀ fuel page films w,
  S ceiling - page < fuel →
  (page_loop ceiling url_of fuel page films w).1 ≠ Diverged.
Proof.
  induction fuel as [|fuel IH]; intros page films w Hf; [lia|].
  cbn [page_loop]. destruct (page <=? ceiling) eqn:E; [|done].
  apply Nat.leb_le in E. unfold fetch. destruct (pending w); [done|].
  destruct (ok _); [|done]. cbn [negb]. rewrite parseFilmsPage_eq.
  destruct (length _ =? 0); [done|]. apply IH. lia.
Qed.


(** ** Titles of feed items *)

Lemma title_year_nonempty ft :
  ft ≠ [] → ∃ s, (title_year ft).1 = Str s ∧ s ≠ [].
Proof.
  intros Hne. unfold title_year.
  destruct (regexp_exec titleYearRegex ft 0) as [res|] eqn:E; [|by exists ft].
  apply regexp_exec_Some in E as (j & _ & E & _).
  apply exec_at_sound in E as (y & Hy & ->).
  apply Matches_titleYear_inv in Hy as (_ & _ & text & ws & d & Hs & _ & H1 & _);
    [|simpl; lia].
  exists text. split; [|by destruct Hs as (_ & ? & _)].
  simpl. apply capture_captured. rewrite result_of_captured by done. by rewrite H1.
Qed.

Lemma item_film_Some item f :
  item_film item = Some f →
  ∃ ft, feed_full_title item = Some ft ∧
        title f = (title_year ft).1 ∧ year f = (title_year ft).2 ∧
        rating f = from_option rating_of Null (feed_desc item).
Proof.
  unfold item_film. destruct (feed_full_title item) as [ft|]; [|done].
  intros [= <-]. by exists ft.
Qed.

(** A title taken from an item holds no line terminator. *)
Lemma feed_full_title_dot item ft :
  feed_full_title item = Some ft → forallb (cls_mem CDot) ft = true.
Proof.
  unfold feed_full_title.
  destruct (regexp_exec titleCdataRegex item 0) as [mt|] eqn:E1.
  - apply regexp_exec_delimited in E1 as (seg & ? & _ & _ & _ & _ & Hc & Hall);
      [|reflexivity]. congruence.
  - destruct (regexp_exec titlePlainRegex item 0) as [mt|] eqn:E2; [|done].
    apply regexp_exec_delimited in E2 as (seg & ? & _ & _ & _ & _ & Hc & Hall);
      [|reflexivity]. congruence.
Qed.

Lemma feed_title_split item film ft text ws d :
  feed_item (Str item) = Returned (Some film) →
  feed_full_title item = Some ft →
  splits_as ft text ws d →
  title film = Str text ∧ year film = Str d.
Proof.
  rewrite feed_item_eq. intros [= Hf] Hft Hs.
  apply item_film_Some in Hf as (ft' & Hft' & Ht & Hy & _).
  rewrite Hft in Hft'. injection Hft' as <-.
  apply feed_full_title_dot in Hft.
  destruct Hs as (-> & Hrest). rewrite forallb_app in Hft.
  apply andb_true_iff in Hft as [Hdot _].
  rewrite Ht, Hy, (title_year_split _ text ws d); done.
Qed.


(** ** Substrings, captures that are kept, and lazy runs *)

Lemma includes_spec s sub :
  includes s sub = true ↔ ∃ pre post, s = pre ++ sub ++ post.
Proof.
  induction s as [|a s IH]; cbn [includes].
  - rewrite orb_false_r, isPrefixOf_app. split.
    + intros [t Ht]. by exists [], t.
    + intros (pre & post & H). symmetry in H.
      apply app_eq_nil in H as [-> H]. by exists post.
  - rewrite orb_true_iff, isPrefixOf_app, IH. split.
    + intros [[t Ht]|(pre & post & ->)]; [by exists [], t|by exists (a :: pre), post].
    + intros ([|b pre] & post & H); [left; by exists post|right].
      injection H as -> ->. by exists pre, post.
Qed.

Lemma includes_app_r s pre sub post :
  s = pre ++ sub ++ post → includes s sub = true.
Proof. intros ->. apply includes_spec. by exists pre, post. Qed.

Lemma clear_caps_other gs x i :
  i ∉ gs → caps (clear_caps gs x) !! i = caps x !! i.
Proof.
  unfold clear_caps. cbn [caps]. induction gs as [|g gs IH]; [done|].
  intros [Hne Hgs]%not_elem_of_cons. cbn [foldr].
  rewrite list_lookup_insert_ne by done. by apply IH.
Qed.

(** A pattern leaves the captures of groups it does not contain alone. *)
Lemma Matches_caps_other r x y i :
  Matches r x y → i ∉ groups_in r → caps y !! i = caps x !! i.
Proof.
  induction 1; cbn [groups_in]; intros Hi; try done.
  - apply not_elem_of_app in Hi as [? ?]. rewrite IHMatches2, IHMatches1; done.
  - apply not_elem_of_app in Hi as [? ?]. by apply IHMatches.
  - apply not_elem_of_app in Hi as [? ?]. by apply IHMatches.
  - apply not_elem_of_cons in Hi as [? ?]. cbn [set_cap caps].
    rewrite list_lookup_insert_ne by done. by apply IHMatches.
  - rewrite IHMatches2, IHMatches1 by done. by apply clear_caps_other.
Qed.

Lemma m_group i r x c :
  m (RGroup i r) x c
  = m r x (λ y, c (set_cap i (take (pos y - pos x) (rest x)) y)).
Proof. done. Qed.

Lemma skip_by_0 x : skip_by 0 x = x.
Proof. apply state_eq; simpl; [lia|done..]. Qed.

(** A lazy run over a character class stops at the first place where the
    continuation accepts. *)
Lemma rep_lazy_first k c : ∀ fuel x z,
  length (rest x) ≤ fuel →
  rep (m (RClass k)) [] false c fuel 0 None x = Some z →
  ∃ n, n ≤ length (rest x) ∧ forallb (cls_mem k) (take n (rest x)) = true ∧
       c (skip_by n x) = Some z ∧ ∀ j, j < n → c (skip_by j x) = None.
Proof.
  induction fuel as [|fuel IH]; intros x z Hfuel H.
  - cbn [rep] in H. exists 0. rewrite skip_by_0.
    split_and!; [lia|done|done|intros; lia].
  - cbn [rep] in H. unfold or_else in H. destruct (c x) as [z'|] eqn:Ec.
    { exists 0. rewrite skip_by_0. split_and!; [lia|done|congruence|intros; lia]. }
    cbn [m] in H. unfold clear_caps in H. cbn [foldr rest pos caps] in H.
    destruct (rest x) as [|a t] eqn:Er; [done|].
    destruct (cls_mem k a) eqn:Ea; [|done].
    unfold advance in H. cbn [pos rest caps] in H.
    replace (S (pos x) =? pos x) with false in H
      by (symmetry; apply Nat.eqb_neq; lia).
    rewrite andb_false_r in H.
    cbn [pred_max fmap option_fmap option_map Nat.pred] in H.
    apply IH in H as (n & Hn & Hall & Hc & Hlt); [|cbn [rest length] in *; lia].
    cbn [rest pos caps] in *.
    assert (Hskip : ∀ j, skip_by j (State (S (pos x)) t (caps x)) = skip_by (S j) x).
    { intros j. apply state_eq; simpl; [lia|by rewrite Er|done]. }
    exists (S n). split_and!.
    + simpl. lia.
    + cbn [take forallb]. by rewrite Ea, Hall.
    + by rewrite <- Hskip.
    + intros [|j] Hj; [by rewrite skip_by_0|]. rewrite <- Hskip. apply Hlt. lia.
Qed.

(** The patterns [open(cls*?)close]: the capture is the shortest run of
    the class after [open] that [close] follows. *)
Lemma exec_at_delimited_first a k b input i res :
  ngroups (RLit a ⋅ RGroup 1 (lazy_star k) ⋅ RLit b) = 1 →
  exec_at (RLit a ⋅ RGroup 1 (lazy_star k) ⋅ RLit b) input i = Some res →
  ∃ seg tail, drop i input = a ++ seg ++ b ++ tail ∧
    captured res 1 = Some seg ∧
    ∀ j, j < length seg → isPrefixOf b (drop j (seg ++ b ++ tail)) = false.
Proof.
  unfold exec_at. intros Hng H. rewrite Hng in H.
  destruct (m _ _ Some) as [z|] eqn:E; [|done]. injection H as <-.
  rewrite !m_seq, m_lit in E. cbn [rest] in E.
  destruct (isPrefixOf a (drop i input)) eqn:Ea; [|done].
  apply isPrefixOf_app in Ea as [t Ht].
  rewrite m_group in E. unfold lazy_star in E. rewrite m_quant in E.
  cbn [groups_in Nat.add] in E.
  apply rep_lazy_first in E as (n & Hn & Hall & Hc & Hfirst); [|done].
  set (caps0 := replicate _ None) in *.
  set (y0 := skip_by (length a) (State i (drop i input) caps0)) in *.
  assert (Hy0 : rest y0 = t) by (cbn; by rewrite Ht, drop_app_length).
  assert (Hp0 : pos y0 = i + length a) by done.
  assert (Hc0 : caps y0 = caps0) by done.
  clearbody y0. rewrite Hy0 in *.
  assert (Hno : ∀ j, j < n → isPrefixOf b (drop j t) = false).
  { intros j Hj. specialize (Hfirst j Hj). rewrite m_lit in Hfirst.
    cbn [set_cap skip_by rest] in Hfirst. rewrite Hy0 in Hfirst.
    by destruct (isPrefixOf b (drop j t)). }
  rewrite m_lit in Hc. cbn [set_cap skip_by rest pos caps] in Hc.
  rewrite Hy0 in Hc.
  destruct (isPrefixOf b (drop n t)) eqn:Eb; [|done].
  apply isPrefixOf_app in Eb as [u Hu].
  assert (Ht' : t = take n t ++ b ++ u).
  { rewrite <- (take_drop n t) at 1. by rewrite Hu. }
  exists (take n t), u. split_and!.
  - by rewrite <- Ht'.
  - injection Hc as <-. unfold captured.
    cbn [groups skip_by set_cap caps pos rest].
    rewrite list_lookup_insert_ne by done.
    rewrite Hc0, Nat.add_sub', list_lookup_insert_eq; [done|].
    unfold caps0. rewrite length_replicate. lia.
  - intros j Hj. rewrite <- Ht'. rewrite length_take in Hj. apply Hno. lia.
Qed.


(** ** The listing pattern in full *)

Lemma Matches_filmPattern_inv x y :
  Matches filmPattern x y → 2 < length (caps x) →
  ∃ slug s1 gap s2 t,
    rest x = lit "data-target-link=" ++ [quote_char]
             ++ (lit "/film/" ++ slug ++ lit "/") ++ [quote_char]
             ++ s1 ++ lit ">" ++ gap ++ lit "<img" ++ s2
             ++ lit "alt=" ++ [quote_char] ++ t ++ [quote_char] ++ rest y ∧
    slug ≠ [] ∧ forallb (cls_mem (CNot quote_char)) slug = true ∧
    t ≠ [] ∧ forallb (cls_mem (CNot quote_char)) t = true ∧
    caps y !! 1 = Some (Some (lit "/film/" ++ slug ++ lit "/")) ∧
    caps y !! 2 = Some (Some t).
Proof.
  intros H Hlen. unfold filmPattern in H.
  apply Matches_seq_inv in H as (y12 & H & F13).
  apply Matches_seq_inv in H as (y11 & H & F12).
  apply Matches_seq_inv in H as (y10 & H & F11).
  apply Matches_seq_inv in H as (y9 & H & F10).
  apply Matches_seq_inv in H as (y8 & H & F9).
  apply Matches_seq_inv in H as (y7 & H & F8).
  apply Matches_seq_inv in H as (y6 & H & F7).
  apply Matches_seq_inv in H as (y5 & H & F6).
  apply Matches_seq_inv in H as (y4 & H & F5).
  apply Matches_seq_inv in H as (y3 & H & F4).
  apply Matches_seq_inv in H as (y2 & H & F3).
  apply Matches_seq_inv in H as (y1 & F1 & F2).
  apply Matches_lit_inv in F1 as (R1 & P1 & C1).
  apply Matches_lit_inv in F2 as (R2 & P2 & C2).
  apply Matches_group_inv in F3 as (z3 & F3 & ->).
  apply Matches_seq_inv in F3 as (u2 & F3 & G3).
  apply Matches_seq_inv in F3 as (u1 & G1 & G2).
  apply Matches_lit_inv in G1 as (Ra & Pa & Ca).
  apply Matches_quant_class_inv in G2 as (slug & Rb & Pb & Cb & Hslug & Hs1 & _);
    [|done].
  apply Matches_lit_inv in G3 as (Rc & Pc & Cc).
  apply Matches_lit_inv in F4 as (R4 & P4 & C4).
  apply Matches_quant_class_inv in F5 as (s1 & R5 & P5 & C5 & _); [|done].
  apply Matches_lit_inv in F6 as (R6 & P6 & C6).
  apply Matches_quant_class_inv in F7 as (gap & R7 & P7 & C7 & _); [|done].
  apply Matches_lit_inv in F8 as (R8 & P8 & C8).
  apply Matches_quant_class_inv in F9 as (s2 & R9 & P9 & C9 & _); [|done].
  apply Matches_lit_inv in F10 as (R10 & P10 & C10).
  apply Matches_lit_inv in F11 as (R11 & P11 & C11).
  apply Matches_group_inv in F12 as (z12 & F12 & ->).
  apply Matches_quant_class_inv in F12 as (t & R12 & P12 & C12 & Ht & Ht1 & _);
    [|done].
  apply Matches_lit_inv in F13 as (R13 & P13 & C13).
  cbn [set_cap rest pos caps] in *.
  exists slug, s1, gap, s2, t.
  assert (Hcap1 : take (pos z3 - pos y2) (rest y2) = lit "/film/" ++ slug ++ lit "/").
  { rewrite Ra, Rb, Rc.
    replace (pos z3 - pos y2)
      with (length (lit "/film/" ++ slug ++ lit "/")) by (rewrite !length_app; lia).
    rewrite !(app_assoc _ _ (rest z3)). by rewrite take_app_length. }
  assert (Hcap2 : take (pos z12 - pos y11) (rest y11) = t).
  { rewrite R12, P12, Nat.add_sub'. by rewrite take_app_length. }
  rewrite Hcap1 in *. rewrite Hcap2 in *.
  assert (length (caps z3) = length (caps x)) as L3 by congruence.
  split_and!.
  - rewrite R1, R2, Ra, Rb, Rc, R4, R5, R6, R7, R8, R9, R10, R11, R12, R13.
    by rewrite <- !app_assoc.
  - intros ->. simpl in Hs1. lia.
  - done.
  - intros ->. simpl in Ht1. lia.
  - done.
  - rewrite C13. rewrite list_lookup_insert_ne by done.
    rewrite C12, C11, C10, C9, C8, C7, C6, C5, C4.
    apply list_lookup_insert_eq. lia.
  - rewrite C13. apply list_lookup_insert_eq.
    rewrite C12, C11, C10, C9, C8, C7, C6, C5, C4, length_insert. lia.
Qed.


(** ** The fields of a feed record *)

Lemma item_film_fields item f :
  item_film item = Some f →
  ∃ ft, feed_full_title item = Some ft ∧
        title f = (title_year ft).1 ∧ year f = (title_year ft).2 ∧
        rating f = from_option rating_of Null (feed_desc item) ∧
        watchDate f = from_option watch_date_of Null (feed_desc item) ∧
        link f = feed_link item ∧
        rewatch f = from_option (λ d, includes d (lit "Rewatched")) false
                      (feed_desc item).
Proof.
  unfold item_film. destruct (feed_full_title item) as [ft|]; [|done].
  intros [= <-]. by exists ft.
Qed.

Lemma regexp_exec_delimited_includes a k b input li res :
  ngroups (RLit a ⋅ RGroup 1 (lazy_star k) ⋅ RLit b) = 1 →
  regexp_exec (RLit a ⋅ RGroup 1 (lazy_star k) ⋅ RLit b) input li = Some res →
  includes input a = true ∧ includes input b = true.
Proof.
  intros Hn H.
  apply regexp_exec_delimited in H as (seg & tail & Hd & _); [|done].
  pose proof (take_drop (index res) input) as Hi. rewrite Hd in Hi. split.
  - by apply (includes_app_r _ (take (index res) input) a (seg ++ b ++ tail)).
  - apply (includes_app_r _ (take (index res) input ++ a ++ seg) b tail).
    by rewrite <- !app_assoc.
Qed.

(** The capture of [open(cls*?)close] stops at the first [close]. *)
Lemma regexp_exec_delimited_first a k b input li res :
  ngroups (RLit a ⋅ RGroup 1 (lazy_star k) ⋅ RLit b) = 1 → b ≠ [] →
  regexp_exec (RLit a ⋅ RGroup 1 (lazy_star k) ⋅ RLit b) input li = Some res →
  ∃ seg, captured res 1 = Some seg ∧ includes seg b = false ∧
         forallb (cls_mem k) seg = true ∧
         includes input (a ++ seg ++ b) = true.
Proof.
  intros Hn Hb H. apply regexp_exec_Some in H as (i & _ & H & _).
  pose proof H as H'.
  apply exec_at_delimited in H' as (seg' & ? & _ & _ & _ & Hc' & Hall); [|done].
  apply exec_at_delimited_first in H as (seg & tail & Hd & Hc & Hfirst); [|done].
  assert (seg' = seg) as -> by congruence.
  exists seg. split_and!; [done| |done|].
  - destruct (includes seg b) eqn:E; [|done]. exfalso.
    apply includes_spec in E as (p & q & ->).
    assert (length p < length (p ++ b ++ q)) as Hlt.
    { rewrite !length_app. destruct b; [done|simpl; lia]. }
    specialize (Hfirst (length p) Hlt).
    rewrite <- !app_assoc, drop_app_length in Hfirst.
    assert (isPrefixOf b (b ++ q ++ b ++ tail) = true) as Hp
      by (apply isPrefixOf_app; by eexists).
    congruence.
  - apply (includes_app_r _ (take i input) _ tail).
    pose proof (take_drop i input) as Hi. rewrite Hd in Hi.
    by rewrite <- !app_assoc.
Qed.

Lemma feed_desc_none item :
  includes item (lit "<description><![CDATA[") = false ∨
  includes item (lit "]]></description>") = false →
  feed_desc item = None.
Proof.
  intros Hno. unfold feed_desc.
  destruct (regexp_exec descRegex item 0) as [dm|] eqn:E; [|done].
  apply regexp_exec_delimited_includes in E as [H1 H2]; [|reflexivity].
  destruct Hno; congruence.
Qed.

Lemma forallb_char c s :
  forallb (cls_mem (CChar c)) s = true → s = replicate (length s) c.
Proof.
  induction s as [|a s IH]; [done|]. cbn [forallb cls_mem length replicate].
  intros [Ha Hs]%andb_true_iff. apply N.eqb_eq in Ha as <-. f_equal. by apply IH.
Qed.

Lemma rating_of_shape desc :
  rating_of desc = Null ∨ ∃ r, rating_of desc = Str r ∧ rating_shape r.
Proof.
  unfold rating_of.
  destruct (regexp_exec ratingRegex desc 0) as [rm|] eqn:E; [right|by left].
  apply regexp_exec_Some in E as (i & _ & E & _).
  apply exec_at_sound in E as (y & Hy & ->).
  pose proof (Matches_caps_length _ _ _ Hy) as Hlen.
  pose proof (Matches_consumed _ _ _ Hy) as (seg & Hseg & Hpos).
  apply Matches_seq_inv in Hy as (y1 & Hq & Ho).
  apply Matches_quant_class_inv in Hq as (s1 & R1 & P1 & _ & A1 & L1 & _); [|done].
  apply Matches_quant_class_inv in Ho as (s2 & R2 & P2 & _ & A2 & _ & L2);
    [|intros ? [= <-]; lia].
  specialize (L2 1 eq_refl). cbn [init rest pos caps] in *.
  exists (s1 ++ s2). split.
  - unfold capture, result_of. cbn [groups].
    rewrite list_lookup_insert_eq by (rewrite Hlen, length_replicate; lia).
    do 2 f_equal. rewrite R1, R2, P2, P1.
    replace (i + length s1 + length s2 - i) with (length (s1 ++ s2))
      by (rewrite length_app; lia).
    by rewrite app_assoc, take_app_length.
  - apply forallb_char in A1, A2. destruct s1 as [|a s1]; [simpl in L1; lia|].
    exists (length s1). rewrite A1. cbn [length].
    destruct s2 as [|b [|??]]; [left; by rewrite app_nil_r|right|simpl in L2; lia].
    rewrite A2. done.
Qed.

Lemma title_year_fields ft :
  one_line ft = true →
  (∃ t, (title_year ft).1 = Str t ∧ one_line t = true) ∧
  ((title_year ft).2 = Null ∨
   ∃ d, (title_year ft).2 = Str d ∧ length d = 4 ∧ forallb is_digit d = true).
Proof.
  intros Hft. unfold title_year.
  destruct (regexp_exec titleYearRegex ft 0) as [res|] eqn:E;
    [|split; [by exists ft|by left]].
  apply regexp_exec_Some in E as (j & _ & E & _).
  apply exec_at_sound in E as (y & Hy & ->).
  apply Matches_titleYear_inv in Hy
    as (_ & _ & text & ws & d & Hs & Hdot & H1 & H2); [|simpl; lia].
  destruct Hs as (_ & _ & _ & Hlen & Hd). cbn [fst snd]. split.
  - exists text. split; [|done].
    apply capture_captured. rewrite result_of_captured by done. by rewrite H1.
  - right. exists d. split_and!; [|done..].
    apply capture_captured. rewrite result_of_captured by done. by rewrite H2.
Qed.

Lemma feed_link_shape item :
  feed_link item = Null ∨
  ∃ l, feed_link item = Str l ∧ one_line l = true ∧
       includes l (lit "</link>") = false.
Proof.
  unfold feed_link.
  destruct (regexp_exec linkRegex item 0) as [lm|] eqn:E; [right|by left].
  apply regexp_exec_delimited_first in E as (l & Hc & Hno & Hall & _);
    [|reflexivity|done].
  exists l. split_and!; [by apply capture_captured|done|done].
Qed.

Lemma nonempty_of_length (s : str) : 1 ≤ length s → s ≠ [].
Proof. intros H ->. simpl in H. lia. Qed.

Lemma Matches_dateRegex_inv x y :
  Matches dateRegex x y → 1 < length (caps x) →
  ∃ s1 w s2 d,
    rest x = lit "Watched on" ++ s1 ++ w ++ s2 ++ d ++ rest y ∧
    s1 ≠ [] ∧ forallb is_space s1 = true ∧
    w ≠ [] ∧ forallb is_word w = true ∧
    s2 ≠ [] ∧ forallb is_space s2 = true ∧
    date_shape d ∧ caps y !! 1 = Some (Some d).
Proof.
  intros H Hlen. unfold dateRegex in H.
  apply Matches_seq_inv in H as (y4 & H & G).
  apply Matches_seq_inv in H as (y3 & H & F4).
  apply Matches_seq_inv in H as (y2 & H & F3).
  apply Matches_seq_inv in H as (y1 & F1 & F2).
  apply Matches_group_inv in G as (z & G & ->).
  apply Matches_seq_inv in G as (u5 & G & G6).
  apply Matches_seq_inv in G as (u4 & G & G5).
  apply Matches_seq_inv in G as (u3 & G & G4).
  apply Matches_seq_inv in G as (u2 & G & G3).
  apply Matches_seq_inv in G as (u1 & G1 & G2).
  apply Matches_lit_inv in F1 as (R1 & P1 & C1).
  apply Matches_quant_class_inv in F2 as (s1 & R2 & P2 & C2 & A2 & L2 & _); [|done].
  apply Matches_quant_class_inv in F3 as (w & R3 & P3 & C3 & A3 & L3 & _); [|done].
  apply Matches_quant_class_inv in F4 as (s2 & R4 & P4 & C4 & A4 & L4 & _); [|done].
  apply Matches_quant_class_inv in G1 as (mo & Q1 & O1 & D1 & B1 & M1 & _); [|done].
  apply Matches_quant_class_inv in G2 as (t1 & Q2 & O2 & D2 & B2 & M2 & _); [|done].
  apply Matches_quant_class_inv in G3 as (dy & Q3 & O3 & D3 & B3 & M3 & _); [|done].
  apply Matches_lit_inv in G4 as (Q4 & O4 & D4).
  apply Matches_quant_class_inv in G5 as (t2 & Q5 & O5 & D5 & B5 & M5 & _); [|done].
  apply Matches_quant_class_inv in G6 as (yr & Q6 & O6 & D6 & B6 & M6 & N6);
    [|by intros ? [= <-]].
  specialize (N6 4 eq_refl). cbn [set_cap rest pos caps cls_mem] in *.
  set (d := mo ++ t1 ++ dy ++ lit "," ++ t2 ++ yr).
  assert (Hy4 : rest y4 = d ++ rest z).
  { unfold d. rewrite Q1, Q2, Q3, Q4, Q5, Q6. by rewrite <- !app_assoc. }
  assert (Hpz : pos z - pos y4 = length d).
  { unfold d. rewrite !length_app. lia. }
  exists s1, w, s2, d. split_and!; auto using nonempty_of_length.
  - rewrite R1, R2, R3, R4, Hy4. done.
  - exists mo, t1, dy, t2, yr.
    split_and!; auto using nonempty_of_length. lia.
  - rewrite Hpz, Hy4, take_app_length.
    apply list_lookup_insert_eq.
    rewrite D6, D5, D4, D3, D2, D1, C4, C3, C2, C1. lia.
Qed.


(** ** Dates, records, the decoder and full paginations *)

Lemma watch_date_of_shape desc :
  watch_date_of desc = Null ∨
  ∃ d s1 w s2,
    watch_date_of desc = Str d ∧ date_shape d ∧
    s1 ≠ [] ∧ forallb is_space s1 = true ∧
    w ≠ [] ∧ forallb is_word w = true ∧
    s2 ≠ [] ∧ forallb is_space s2 = true ∧
    includes desc (lit "Watched on" ++ s1 ++ w ++ s2 ++ d) = true.
Proof.
  unfold watch_date_of.
  destruct (regexp_exec dateRegex desc 0) as [dm|] eqn:E; [right|by left].
  apply regexp_exec_Some in E as (i & _ & E & _).
  apply exec_at_sound in E as (y & Hy & ->).
  apply Matches_dateRegex_inv in Hy
    as (s1 & w & s2 & d & Hr & ? & ? & ? & ? & ? & ? & Hd & Hc); [|simpl; lia].
  exists d, s1, w, s2. split_and!; try done.
  - apply capture_captured. rewrite result_of_captured by done. by rewrite Hc.
  - cbn [init rest] in Hr.
    apply (includes_app_r _ (take i desc) _ (rest y)).
    pose proof (take_drop i desc) as Hi. rewrite Hr in Hi.
    by rewrite <- !app_assoc.
Qed.

Lemma watch_date_of_absent desc :
  includes desc (lit "Watched on") = false → watch_date_of desc = Null.
Proof.
  intros Hno. destruct (watch_date_of_shape desc)
    as [?|(d & s1 & w & s2 & _ & _ & _ & _ & _ & _ & _ & _ & Hin)]; [done|].
  apply includes_spec in Hin as (p & q & ->).
  rewrite (includes_app_r _ p (lit "Watched on") (s1 ++ w ++ s2 ++ d ++ q)) in Hno;
    [done|by rewrite <- !app_assoc].
Qed.

Lemma item_film_ok item f : item_film item = Some f → feed_record_ok f.
Proof.
  intros (ft & Hft & Ht & Hy & Hr & Hw & Hl & _)%item_film_fields.
  apply feed_full_title_dot in Hft.
  destruct (title_year_fields ft Hft) as [Htitle Hyear].
  unfold feed_record_ok. rewrite Ht, Hy, Hr, Hw, Hl. split_and!; try done.
  - destruct (feed_desc item) as [d|]; [apply rating_of_shape|by left].
  - destruct (feed_desc item) as [d|]; [|by left]. cbn [from_option].
    destruct (watch_date_of_shape d) as [?|(dt & ? & ? & ? & ? & ? & _)];
      [by left|right; by exists dt].
  - apply feed_link_shape.
Qed.

Lemma decode_spec_length : ∀ n s, length s ≤ n →
  length (decode_spec 0 s) ≤ length s.
Proof.
  induction n as [|n IH]; intros s Hn.
  - destruct s; [done|simpl in Hn; lia].
  - destruct s as [|c t]; [done|].
    destruct (entity_at (c :: t)) as [[key ch]|] eqn:E.
    + rewrite (decode_spec_entity _ _ _ E).
      apply entity_at_entry in E as (Hp & Hk & Hch & _).
      rewrite length_app, Hch.
      pose proof (IH (drop (length key) (c :: t))) as Hd.
      rewrite length_drop in Hd. simpl in *. lia.
    + rewrite decode_spec_plain by done. cbn [length] in *.
      specialize (IH t). lia.
Qed.

Lemma entity_at_ampersand s key ch :
  entity_at s = Some (key, ch) → isPrefixOf [ampersand] s = true.
Proof.
  intros [Hin Hp]%entity_in_spec. apply isPrefixOf_app in Hp as [t ->].
  unfold entities in Hin.
  repeat (apply elem_of_cons in Hin as [[= -> ->]|Hin]; [reflexivity|]).
  by apply elem_of_nil in Hin.
Qed.

Lemma no_ampersand_no_entity s :
  ampersand ∉ s → ∀ i, entity_at (drop i s) = None.
Proof.
  intros Hno i. destruct (entity_at (drop i s)) as [[key ch]|] eqn:E; [|done].
  exfalso. apply entity_at_ampersand in E.
  apply isPrefixOf_app in E as [t Ht]. apply Hno.
  rewrite <- (take_drop i s), Ht. apply elem_of_app. right. by left.
Qed.

Lemma entity_at_key key ch s :
  (key, ch) ∈ entities → entity_at (key ++ s) = Some (key, ch).
Proof.
  unfold entities. intros Hin.
  repeat (apply elem_of_cons in Hin as [[= -> ->]|Hin]; [reflexivity|]).
  by apply elem_of_nil in Hin.
Qed.

Lemma entity_at_plain c s : c ≠ ampersand → entity_at (c :: s) = None.
Proof.
  intros Hc. destruct (entity_at (c :: s)) as [[key ch]|] eqn:E; [|done].
  apply entity_at_ampersand in E. cbn [isPrefixOf] in E.
  rewrite andb_true_r in E. apply N.eqb_eq in E. congruence.
Qed.

(** The page loop when every page up to the ceiling goes on. *)
Lemma page_loop_full ceiling url_of good : ∀ fuel page films later log,
  Forall more_pages good → page + length good = S ceiling →
  length good < fuel →
  page_loop ceiling url_of fuel page films (World (good ++ later) log)
  = (Returned (films ++ concat (films_on <$> good)),
     World later (log ++ (page_request url_of <$> seq page (length good)))).
Proof.
  induction good as [|r good IH]; intros fuel page films later log Hgood Hc Hf;
    (destruct fuel as [|fuel]; [simpl in Hf; lia|]); cbn [page_loop].
  - replace (page <=? ceiling) with false
      by (symmetry; apply Nat.leb_gt; simpl in Hc; lia).
    simpl. by rewrite !app_nil_r.
  - inversion Hgood as [|? ? [Hok Hne] Hgood']; subst. simpl in Hc, Hf.
    replace (page <=? ceiling) with true by (symmetry; apply Nat.leb_le; lia).
    cbn [fetch app pending requests]. rewrite Hok. cbn [negb].
    rewrite fmap_cons, films_on_eq. cbn [concat].
    rewrite parseFilmsPage_eq in Hne |- *.
    destruct (page_films (body r)) as [|f fs] eqn:Epf; [done|].
    cbn [length Nat.eqb]. rewrite IH; try done; try lia.
    rewrite Nat.add_1_r. f_equal.
    + f_equal. by rewrite <- app_assoc.
    + f_equal. by rewrite <- app_assoc.
Qed.

(** The page loop when the responses run out below the ceiling. *)
Lemma page_loop_rejected ceiling url_of good : ∀ fuel page films log,
  Forall more_pages good → page + length good ≤ ceiling →
  length good < fuel →
  page_loop ceiling url_of fuel page films (World good log)
  = (Threw,
     World [] (log ++ (page_request url_of <$> seq page (S (length good))))).
Proof.
  induction good as [|r good IH]; intros fuel page films log Hgood Hc Hf;
    (destruct fuel as [|fuel]; [simpl in Hf; lia|]); cbn [page_loop].
  - replace (page <=? ceiling) with true
      by (symmetry; apply Nat.leb_le; simpl in Hc; lia).
    done.
  - inversion Hgood as [|? ? [Hok Hne] Hgood']; subst. simpl in Hc, Hf.
    replace (page <=? ceiling) with true by (symmetry; apply Nat.leb_le; lia).
    cbn [fetch app pending requests]. rewrite Hok. cbn [negb].
    rewrite parseFilmsPage_eq in Hne |- *.
    destruct (page_films (body r)) as [|f fs] eqn:Epf; [done|].
    cbn [length Nat.eqb]. rewrite IH; try done; try lia.
    rewrite Nat.add_1_r. do 2 f_equal. by rewrite <- app_assoc.
Qed.

Lemma listing_film_ok mt :
  (∃ x y, 2 < length (caps x) ∧ Matches filmPattern x y ∧
          captured mt 1 = mjoin (caps y !! 1)) →
  listing_record_ok (listing_film mt).
Proof.
  intros (x & y & Hlen & Hm & Hc).
  apply Matches_filmPattern_inv in Hm
    as (slug & _ & _ & _ & _ & _ & Hne & Hall & _ & _ & H1 & _); [|done].
  rewrite H1 in Hc. unfold listing_record_ok, listing_film.
  cbn [year rating watchDate rewatch link]. split_and!; try done.
  exists slug. split_and!; [done..|].
  by rewrite (capture_captured _ _ _ Hc).
Qed.

Lemma all_matches_elem r input : ∀ fuel li mt,
  mt ∈ all_matches r input fuel li →
  ∃ i, i ≤ length input ∧ exec_at r input i = Some mt.
Proof.
  induction fuel as [|fuel IH]; intros li mt Hin; simpl in Hin.
  - by apply elem_of_nil in Hin.
  - destruct (regexp_exec r input li) as [mt'|] eqn:E;
      [|by apply elem_of_nil in Hin].
    apply elem_of_cons in Hin as [->|Hin]; [|by eapply IH].
    apply regexp_exec_Some in E as (i & Hi & E & _). exists i. split; [lia|done].
Qed.

Lemma page_films_ok html f : f ∈ page_films html → listing_record_ok f.
Proof.
  unfold page_films. intros (mt & -> & Hin)%list_elem_of_fmap.
  apply all_matches_elem in Hin as (i & _ & E).
  apply exec_at_sound in E as (y & Hy & ->).
  apply listing_film_ok. exists (init filmPattern html i), y.
  split_and!; [simpl; lia|done|]. by rewrite result_of_captured.
Qed.

Lemma all_matches_exec r input : ∀ fuel li mt,
  mt ∈ all_matches r input fuel li →
  ∃ li', regexp_exec r input li' = Some mt.
Proof.
  induction fuel as [|fuel IH]; intros li mt Hin; simpl in Hin.
  - by apply elem_of_nil in Hin.
  - destruct (regexp_exec r input li) as [mt'|] eqn:E;
      [|by apply elem_of_nil in Hin].
    apply elem_of_cons in Hin as [->|Hin]; [by exists li|by eapply IH].
Qed.

Lemma feed_items_delimited xml item :
  item ∈ feed_items xml →
  includes item (lit "</item>") = false ∧
  includes xml (lit "<item>" ++ item ++ lit "</item>") = true.
Proof.
  unfold feed_items. intros (mt & Hin & Hc)%list_elem_of_omap.
  apply all_matches_exec in Hin as (li & E).
  apply regexp_exec_delimited_first in E as (seg & Hc' & Hno & _ & Hin);
    [|reflexivity|done].
  assert (seg = item) as -> by congruence. done.
Qed.

Lemma filmPattern_markers html i res :
  exec_at filmPattern html i = Some res →
  includes html (lit "data-target-link=") = true ∧
  includes html (lit "<img") = true ∧
  includes html (lit "alt=") = true.
Proof.
  intros E. apply exec_at_sound in E as (y & Hy & _).
  apply Matches_filmPattern_inv in Hy
    as (slug & s1 & gap & s2 & t & Hr & _); [|simpl; lia].
  cbn [init rest] in Hr.
  pose proof (take_drop i html) as Hi. rewrite Hr in Hi.
  split_and!; apply includes_spec.
  - eexists (take i html), _. symmetry. exact Hi.
  - eexists (take i html ++ lit "data-target-link=" ++ [quote_char]
             ++ (lit "/film/" ++ slug ++ lit "/") ++ [quote_char]
             ++ s1 ++ lit ">" ++ gap), _.
    rewrite <- Hi at 1. rewrite <- !app_assoc. reflexivity.
  - eexists (take i html ++ lit "data-target-link=" ++ [quote_char]
             ++ (lit "/film/" ++ slug ++ lit "/") ++ [quote_char]
             ++ s1 ++ lit ">" ++ gap ++ lit "<img" ++ s2), _.
    rewrite <- Hi at 1. rewrite <- !app_assoc. reflexivity.
Qed.


(** ** First occurrences of a marker *)

Lemma includes_drop s sub i :
  includes s sub = false → isPrefixOf sub (drop i s) = false.
Proof.
  intros Hno. destruct (isPrefixOf sub (drop i s)) eqn:E; [|done].
  apply isPrefixOf_app in E as [t Ht].
  rewrite <- Hno. symmetry. apply includes_spec.
  exists (take i s), t. by rewrite <- Ht, take_drop.
Qed.

Lemma first_occurrence b seg tail j :
  no_border b = true → includes seg b = false → j < length seg →
  isPrefixOf b (drop j (seg ++ b ++ tail)) = false.
Proof.
  intros Hb Hno Hj.
  destruct (isPrefixOf b (drop j (seg ++ b ++ tail))) eqn:E; [|done].
  apply isPrefixOf_app in E as [t Ht].
  rewrite drop_app_le in Ht by lia.
  destruct (decide (length b ≤ length (drop j seg))) as [Hle|Hgt].
  - apply (f_equal (take (length b))) in Ht.
    rewrite take_app_le, take_app_length in Ht by done.
    rewrite <- Hno. symmetry. apply includes_spec.
    exists (take j seg), (drop (length b) (drop j seg)).
    by rewrite <- Ht at 1; rewrite take_drop, take_drop.
  - pose proof (length_drop seg j) as Hld.
    set (n := length (drop j seg)) in *.
    assert (1 ≤ n < length b) as Hn by lia.
    apply (f_equal (drop n)) in Ht.
    unfold n in Ht at 1. rewrite drop_app_length in Ht.
    rewrite drop_app_le in Ht by lia.
    apply (f_equal (take (length b - n))) in Ht.
    rewrite take_app_le in Ht by lia.
    assert (length (drop n b) = length b - n) as Hl by apply length_drop.
    rewrite <- Hl in Ht at 2. rewrite take_app_length in Ht.
    unfold no_border in Hb.
    assert (negb (isPrefixOf (drop n b) b) = true) as Hnb.
    { eapply forallb_forall in Hb; [exact Hb|]. apply in_seq. lia. }
    apply negb_true_iff in Hnb. rewrite <- Hnb. symmetry.
    apply isPrefixOf_app. exists (drop (length b - n) b).
    by rewrite <- Ht, take_drop.
Qed.

(** ** A delimited pattern finds the first opening and the first closing *)

Lemma exec_at_delimited_intro a k b input i seg tail :
  ngroups (RLit a ⋅ RGroup 1 (lazy_star k) ⋅ RLit b) = 1 →
  drop i input = a ++ seg ++ b ++ tail →
  forallb (cls_mem k) seg = true →
  (∀ j, j < length seg → isPrefixOf b (drop j (seg ++ b ++ tail)) = false) →
  ∃ res, exec_at (RLit a ⋅ RGroup 1 (lazy_star k) ⋅ RLit b) input i = Some res ∧
         captured res 1 = Some seg ∧
         end_index res = i + length a + length seg + length b.
Proof.
  intros Hg Hd Hk Hfirst.
  set (r := (RLit a ⋅ RGroup 1 (lazy_star k) ⋅ RLit b)%re) in *.
  assert (is_Some (exec_at r input i)) as [res E].
  { set (x := init r input i).
    set (y1 := State (i + length a) (seg ++ b ++ tail) (caps x)).
    set (y2 := State (i + length a + length seg) (b ++ tail) (caps x)).
    set (y3 := set_cap 1 (take (pos y2 - pos y1) (rest y1)) y2).
    set (y4 := State (i + length a + length seg + length b) tail (caps y3)).
    apply (exec_at_complete r input i y4).
    apply M_seq with y3; [apply M_seq with y1|].
    - by apply Matches_lit_intro.
    - apply M_group.
      apply (Matches_quant_class_intro 0 None false k seg); simpl; try done; lia.
    - apply Matches_lit_intro; simpl; done. }
  exists res. split; [done|].
  pose proof E as E1. apply exec_at_delimited_first in E1
    as (seg' & tail' & Hd' & Hc' & Hfirst'); [|done].
  apply exec_at_delimited in E as (seg'' & tail'' & _ & _ & He & Hc'' & _);
    [|done].
  assert (seg'' = seg') as -> by congruence.
  rewrite Hd in Hd'. apply app_inv_head in Hd'.
  assert (length seg' = length seg) as Hl.
  { destruct (lt_eq_lt_dec (length seg') (length seg)) as [[Hlt|]|Hlt];
      [|done|].
    - specialize (Hfirst _ Hlt). rewrite Hd', drop_app_length in Hfirst.
      assert (isPrefixOf b (b ++ tail') = true) as Hp
        by (apply isPrefixOf_app; eauto).
      congruence.
    - specialize (Hfirst' _ Hlt). rewrite <- Hd', drop_app_length in Hfirst'.
      assert (isPrefixOf b (b ++ tail) = true) as Hp
        by (apply isPrefixOf_app; eauto).
      congruence. }
  apply app_inj_1 in Hd' as [-> _]; [|done]. done.
Qed.

Lemma regexp_exec_delimited_intro a k b before seg tail :
  ngroups (RLit a ⋅ RGroup 1 (lazy_star k) ⋅ RLit b) = 1 →
  no_border a = true → no_border b = true →
  includes before a = false → includes seg b = false →
  forallb (cls_mem k) seg = true →
  ∃ res, regexp_exec (RLit a ⋅ RGroup 1 (lazy_star k) ⋅ RLit b)
           (before ++ a ++ seg ++ b ++ tail) 0 = Some res ∧
         captured res 1 = Some seg ∧
         end_index res = length before + length a + length seg + length b.
Proof.
  intros Hg Ha Hb Hna Hnb Hk.
  destruct (exec_at_delimited_intro a k b (before ++ a ++ seg ++ b ++ tail)
              (length before) seg tail) as (res & E & Hc & He); try done.
  { by rewrite drop_app_length. }
  { intros j Hj. by apply first_occurrence. }
  exists res. split_and!; [|done..].
  apply regexp_exec_first with (length before); [|done|].
  - rewrite length_app. lia.
  - intros j [_ Hj].
    destruct (exec_at _ _ j) as [res'|] eqn:E'; [|done].
    apply exec_at_delimited in E' as (s' & t' & Hd' & _); [|done].
    assert (isPrefixOf a (drop j (before ++ a ++ seg ++ b ++ tail)) = true)
      as Hp by (apply isPrefixOf_app; eauto).
    by rewrite first_occurrence in Hp.
Qed.

Lemma regexp_exec_element a k b text s :
  ngroups (RLit a ⋅ RGroup 1 (lazy_star k) ⋅ RLit b) = 1 →
  no_border a = true → no_border b = true →
  element a b text s → forallb (cls_mem k) text = true →
  ∃ res, regexp_exec (RLit a ⋅ RGroup 1 (lazy_star k) ⋅ RLit b) s 0 = Some res ∧
         captured res 1 = Some text.
Proof.
  intros Hg Ha Hb (before & after & -> & Hna & Hnb) Hk.
  destruct (regexp_exec_delimited_intro a k b before text after)
    as (res & E & Hc & _); try done.
  by exists res.
Qed.

(** ** Reading the elements of an item *)

Lemma feed_full_title_cdata text item :
  element (lit "<title><![CDATA[") (lit "]]></title>") text item →
  one_line text = true → feed_full_title item = Some text.
Proof.
  intros He Hl. unfold feed_full_title.
  destruct (regexp_exec_element (lit "<title><![CDATA[") CDot
              (lit "]]></title>") text item eq_refl eq_refl eq_refl He Hl)
    as (res & E & Hc).
  unfold titleCdataRegex, RStr. by rewrite E.
Qed.

Lemma feed_full_title_plain text item :
  element (lit "<title>") (lit "</title>") text item →
  includes item (lit "<title><![CDATA[") = false →
  one_line text = true → feed_full_title item = Some text.
Proof.
  intros He Hno Hl. unfold feed_full_title.
  destruct (regexp_exec titleCdataRegex item 0) as [mt|] eqn:E0.
  { apply regexp_exec_delimited_includes in E0 as [E0 _]; [|done].
    congruence. }
  destruct (regexp_exec_element (lit "<title>") CDot
              (lit "</title>") text item eq_refl eq_refl eq_refl He Hl)
    as (res & E & Hc).
  unfold titlePlainRegex, RStr. by rewrite E.
Qed.

Lemma feed_link_element text item :
  element (lit "<link>") (lit "</link>") text item →
  one_line text = true → feed_link item = Str text.
Proof.
  intros He Hl. unfold feed_link.
  destruct (regexp_exec_element (lit "<link>") CDot
              (lit "</link>") text item eq_refl eq_refl eq_refl He Hl)
    as (res & E & Hc).
  unfold linkRegex, RStr. rewrite E. by apply capture_captured.
Qed.

Lemma forallb_any (s : str) : forallb (cls_mem CAny) s = true.
Proof. by induction s. Qed.

Lemma feed_desc_element desc item :
  element (lit "<description><![CDATA[") (lit "]]></description>") desc item →
  feed_desc item = Some desc.
Proof.
  intros He. unfold feed_desc.
  destruct (regexp_exec_element (lit "<description><![CDATA[") CAny
              (lit "]]></description>") desc item eq_refl eq_refl eq_refl He
              (forallb_any desc)) as (res & E & Hc).
  unfold descRegex, RStr. by rewrite E.
Qed.

(** ** A document with one item *)

Lemma feed_items_single before item after :
  includes before (lit "<item>") = false →
  includes item (lit "</item>") = false →
  includes after (lit "<item>") = false →
  feed_items (before ++ lit "<item>" ++ item ++ lit "</item>" ++ after)
  = [item].
Proof.
  intros Hb Hi Ha. unfold feed_items.
  set (xml := before ++ lit "<item>" ++ item ++ lit "</item>" ++ after).
  destruct (regexp_exec_delimited_intro (lit "<item>") CAny (lit "</item>")
              before item after) as (res & E & Hc & He); try done.
  { apply forallb_any. }
  fold xml in E. change (RLit (lit "<item>") ⋅ RGroup 1 (lazy_star CAny)
                           ⋅ RLit (lit "</item>"))%re with itemRegex in E.
  assert (length xml = end_index res + length after) as Hlen.
  { unfold xml. rewrite !length_app. lia. }
  cbn [all_matches]. rewrite E.
  assert (regexp_exec itemRegex xml (end_index res) = None) as E2.
  { apply regexp_exec_None. intros j [Hj _].
    destruct (exec_at itemRegex xml j) as [res'|] eqn:E'; [|done].
    apply exec_at_delimited in E' as (s' & t' & Hd' & _); [|done].
    assert (drop j xml = drop (j - end_index res) after) as Hdrop.
    { unfold xml.
      replace (before ++ lit "<item>" ++ item ++ lit "</item>" ++ after)
        with ((before ++ lit "<item>" ++ item ++ lit "</item>") ++ after)
        by (by rewrite <- !app_assoc).
      rewrite drop_app_ge; rewrite !length_app; [|lia].
      f_equal. lia. }
    rewrite Hdrop in Hd'.
    assert (isPrefixOf (lit "<item>") (drop (j - end_index res) after) = true)
      as Hp by (apply isPrefixOf_app; eauto).
    by rewrite includes_drop in Hp. }
  destruct (length xml) as [|n] eqn:Hn.
  - exfalso. unfold xml in Hn. rewrite !length_app in Hn.
    cbn [length lit] in Hn. vm_compute length in Hn. lia.
  - cbn [all_matches]. rewrite E2. cbn [omap list_omap]. by rewrite Hc.
Qed.

(** ** The watch date of the example *)

Lemma m_lit_step s x c z :
  isPrefixOf s (rest x) = true → c (skip_by (length s) x) = Some z →
  m (RLit s) x c = Some z.
Proof. intros Hp Hc. by rewrite m_lit, Hp. Qed.

Lemma m_plus_run k seg t x c z :
  rest x = seg ++ t → forallb (cls_mem k) seg = true →
  match t with [] => True | a :: _ => cls_mem k a = false end →
  1 ≤ length seg →
  c (skip_by (length seg) x) = Some z →
  m (plus k) x c = Some z.
Proof.
  intros Hr Hk Ht Hl Hc. unfold plus. rewrite m_quant. cbn [groups_in].
  rewrite (rep_greedy_run k c seg x _ 1 t); try done.
  rewrite Hr, length_app. lia.
Qed.

Lemma rep_times_run k c seg : ∀ x fuel t,
  rest x = seg ++ t → forallb (cls_mem k) seg = true → length seg ≤ fuel →
  rep (m (RClass k)) [] true c fuel (length seg) (Some (length seg)) x
  = c (skip_by (length seg) x).
Proof.
  induction seg as [|a seg IH]; intros x fuel t Hr Hall Hfuel;
    cbn [length app forallb] in *.
  - rewrite skip_by_0. by destruct fuel.
  - apply andb_true_iff in Hall as [Ha Hall].
    destruct fuel as [|fuel]; [lia|]. cbn [rep m]. unfold clear_caps.
    cbn [foldr pos rest caps]. rewrite Hr, Ha. unfold advance.
    cbn [pos rest caps Nat.eqb andb pred_max fmap option_fmap option_map Nat.pred].
    rewrite (IH _ fuel t); cbn [pos rest caps]; try done; try lia.
    f_equal. apply state_eq; simpl; [lia|by rewrite Hr|done].
Qed.

Lemma m_times_run n k seg t x c z :
  rest x = seg ++ t → forallb (cls_mem k) seg = true → length seg = n →
  c (skip_by n x) = Some z →
  m (times n k) x c = Some z.
Proof.
  intros Hr Hk <- Hc. unfold times. rewrite m_quant. cbn [groups_in].
  rewrite (rep_times_run k c seg x _ t); try done. lia.
Qed.

Lemma m_date_monday p w1 cs :
  ∃ y, m dateRegex
         (State p (lit "Watched on Monday June 10, 2024" ++ w1) cs) Some
       = Some y ∧
       caps y = <[1 := Some (lit "June 10, 2024")]> cs.
Proof.
  eexists. split.
  - unfold dateRegex, RStr. rewrite !m_seq.
    apply m_lit_step; [vm_compute; reflexivity|].
    apply (m_plus_run _ (lit " ") (lit "Monday June 10, 2024" ++ w1));
      [vm_compute; reflexivity..|vm_compute; lia|].
    apply (m_plus_run _ (lit "Monday") (lit " June 10, 2024" ++ w1));
      [vm_compute; reflexivity..|vm_compute; lia|].
    apply (m_plus_run _ (lit " ") (lit "June 10, 2024" ++ w1));
      [vm_compute; reflexivity..|vm_compute; lia|].
    rewrite m_group, !m_seq.
    apply (m_plus_run _ (lit "June") (lit " 10, 2024" ++ w1));
      [vm_compute; reflexivity..|vm_compute; lia|].
    apply (m_plus_run _ (lit " ") (lit "10, 2024" ++ w1));
      [vm_compute; reflexivity..|vm_compute; lia|].
    apply (m_plus_run _ (lit "10") (lit ", 2024" ++ w1));
      [vm_compute; reflexivity..|vm_compute; lia|].
    apply m_lit_step; [vm_compute; reflexivity|].
    apply (m_plus_run _ (lit " ") (lit "2024" ++ w1));
      [vm_compute; reflexivity..|vm_compute; lia|].
    apply (m_times_run 4 _ (lit "2024") w1); [vm_compute; reflexivity..|].
    reflexivity.
  - unfold set_cap. cbn [caps skip_by pos rest]. do 2 f_equal.
    repeat match goal with
           | |- context [length (lit ?s)] =>
             let v := eval vm_compute in (length (lit s)) in
             change (length (lit s)) with v
           end.
    match goal with |- take ?n _ = _ => replace n with 13 by lia end.
    vm_compute. reflexivity.
Qed.

Lemma exec_at_date_monday w0 w1 :
  ∃ res, exec_at dateRegex (w0 ++ lit "Watched on Monday June 10, 2024" ++ w1)
           (length w0) = Some res ∧
         capture res 1 = Str (lit "June 10, 2024").
Proof.
  unfold exec_at. rewrite drop_app_length.
  destruct (m_date_monday (length w0) w1
              (replicate (S (ngroups dateRegex)) None)) as (y & -> & Hc).
  eexists. split; [done|]. unfold capture. cbn [groups]. by rewrite Hc.
Qed.

Lemma watch_date_monday w0 w1 :
  includes w0 (lit "Watched on") = false →
  watch_date_of (w0 ++ lit "Watched on Monday June 10, 2024" ++ w1)
  = Str (lit "June 10, 2024").
Proof.
  intros Hno. destruct (exec_at_date_monday w0 w1) as (res & E & Hc).
  unfold watch_date_of.
  rewrite (regexp_exec_first _ _ 0 (length w0) res); [done| |done|].
  - rewrite length_app. lia.
  - intros j [_ Hj].
    destruct (exec_at dateRegex _ j) as [res'|] eqn:E'; [|done].
    apply exec_at_sound in E' as (y & Hy & _).
    apply Matches_dateRegex_inv in Hy as (s1 & w & s2 & d & Hr & _);
      [|simpl; lia].
    cbn [init rest] in Hr.
    assert (isPrefixOf (lit "Watched on")
              (drop j (w0 ++ lit "Watched on"
                          ++ (lit " Monday June 10, 2024" ++ w1))) = true) as Hp.
    { apply isPrefixOf_app. eexists. etrans; [|exact Hr]. f_equal. }
    rewrite first_occurrence in Hp; [done|vm_compute; reflexivity|done..].
Qed.

(** ** The item of the end-to-end example *)

Lemma item_film_matrix item : matrix_item item → item_film item = Some matrix_film.
Proof.
  intros (Ht & Hl & desc & Hd & (r0 & r1 & Hr & Hs & Hr1 & Hr2)
          & (w0 & w1 & Hw & Hw0) & Hre).
  assert (feed_full_title item = Some (lit "The Matrix, 1999")) as Hft.
  { destruct Ht as [Ht|[Ht Hno]].
    - by apply feed_full_title_cdata.
    - by apply feed_full_title_plain. }
  assert (rating_of desc = Str (replicate 5 star_char)) as Hrating.
  { rewrite Hr, rating_found by done. unfold half_suffix.
    by rewrite Hr2, app_nil_r. }
  assert (watch_date_of desc = Str (lit "June 10, 2024")) as Hdate.
  { rewrite Hw. by apply watch_date_monday. }
  assert (title_year (lit "The Matrix, 1999")
          = (Str (lit "The Matrix"), Str (lit "1999"))) as Hty
    by (vm_compute; reflexivity).
  unfold item_film.
  rewrite Hft, Hty, (feed_link_element _ _ Hl), (feed_desc_element _ _ Hd);
    [|done].
  cbn [from_option fst snd]. by rewrite Hrating, Hdate, Hre.
Qed.

(** ** The decoder and the table of the specification *)

Lemma decode_spec_of_spec skip s : decode_spec skip s = decoder_of_spec skip s.
Proof. reflexivity. Qed.

Lemma spec_entities_absent s :
  Forall (λ e, includes s e.1 = false) spec_entities →
  ∀ i, entity_at (drop i s) = None.
Proof.
  intros H i. unfold spec_entities in H.
  repeat match goal with
         | H : Forall _ (_ :: _) |- _ =>
           apply Forall_cons_1 in H as [?%(includes_drop _ _ i) H]
         end.
  unfold entity_at, entities. cbn [entity_in fst] in *.
  repeat match goal with
         | H : isPrefixOf _ _ = false |- _ => rewrite H; clear H
         end.
  done.
Qed.


(** * The claims *)

(** C1, as the specification states it, fails: the feed item
    [<item><title></title></item>] has a title element, so it is not
    skipped, and its record has the empty string as title. *)
Lemma feed_empty_title_element :
  parseFeed (lit "<item><title></title></item>") = Returned [plain_film ""].
Proof. vm_compute. reflexivity. Qed.

(** C1, amended: every record of [parseFilmsPage] has a non-empty title, and
    every record of the feed parser comes from an item of the document and
    has a non-empty title whenever the title text taken from that item is
    not empty. *)
Theorem extracted_titles_nonempty :
  (∀ html, ∃ films,
     parseFilmsPage html = Returned films ∧ Forall has_title films) ∧
  (∀ xml, ∃ films,
     parseFeed xml = Returned films ∧
     Forall (λ f, ∃ item fullTitle,
               item ∈ feed_items xml ∧
               feed_item (Str item) = Returned (Some f) ∧
               feed_full_title item = Some fullTitle ∧
               (fullTitle ≠ [] → has_title f)) films).
Proof.
  split.
  - intros html. exists (page_films html). split; [apply parseFilmsPage_eq|].
    apply list.Forall_forall. intros f Hf. by apply page_films_title in Hf.
  - intros xml. eexists. split; [apply parseFeed_eq|].
    apply list.Forall_forall. intros f (item & Hin & Hf)%list_elem_of_omap.
    destruct (item_film_Some _ _ Hf) as (ft & Hft & Ht & _).
    exists item, ft. split_and!; [done|by rewrite feed_item_eq, Hf|done|].
    intros Hne. unfold has_title. rewrite Ht.
    by apply title_year_nonempty.
Qed.

(** C2, as the specification states it, fails: with a response whose status
    is a failure, [fetchRecentActivity] returns normally (here the empty
    sequence parsed from the error page). *)
Lemma failed_feed_fetch_returns_normally :
  ok (Response false (lit "Not Found")) = false ∧
  (fetchRecentActivity (lit "alice")
     (World [Response false (lit "Not Found")] [])).1 = Returned [].
Proof. split; vm_compute; reflexivity. Qed.

(** C2, amended: [fetchRecentActivity] does not look at the status of the
    response.  Whatever the status, it makes one request, for the feed URL,
    and returns the films parsed from the body, which is always a normal
    return; the call fails only when the fetch itself does. *)
Theorem feed_fetch_ignores_status username status text rs log :
  fetchRecentActivity username (World (Response status text :: rs) log)
  = (parseFeed text, World rs (log ++ [Request (feed_url username) []]))
  ∧ (∃ films, parseFeed text = Returned films)
  ∧ (fetchRecentActivity username (World [] log)).1 = Threw.
Proof.
  split_and!; [done| |done]. eexists. apply parseFeed_eq.
Qed.

(** C3, as the specification states it, fails: a description with a run of
    six stars gives a rating of six stars. *)
Lemma six_star_rating :
  feed_item (Str six_star_item)
  = Returned (Some {| title := Str (lit "Heat"); year := Null;
                      rating := Str (replicate 6 star_char);
                      watchDate := Null; link := Null; rewatch := false |}).
Proof. vm_compute. reflexivity. Qed.

(** C3, amended: the rating is absent when the description holds no star;
    otherwise it is the first run of stars of the description, the whole
    run however long, followed by the half glyph when that glyph comes
    right after the run. *)
Theorem rating_is_first_star_run item film desc :
  feed_item (Str item) = Returned (Some film) →
  feed_desc item = Some desc →
  (star_char ∉ desc → rating film = Null) ∧
  (∀ pre n tail,
     desc = pre ++ replicate (S n) star_char ++ tail →
     star_char ∉ pre → isPrefixOf [star_char] tail = false →
     rating film = Str (replicate (S n) star_char ++ half_suffix tail)).
Proof.
  rewrite feed_item_eq. intros [= Hf] Hd.
  apply item_film_Some in Hf as (ft & _ & _ & _ & Hr). rewrite Hd in Hr.
  simpl in Hr. rewrite Hr. split.
  - apply rating_absent.
  - intros pre n tail -> Hpre Htail. by apply rating_found.
Qed.

(** C3 at an item whose description holds three stars and the half glyph
    after some text. *)
Lemma rating_is_first_star_run_witness :
  feed_item (Str rated_item) = Returned (Some rated_film) ∧
  feed_desc rated_item = Some rated_desc ∧
  rating rated_film = Str [star_char; star_char; star_char; half_char].
Proof.
  split_and!; [vm_compute; reflexivity..|].
  apply (proj2 (rating_is_first_star_run rated_item rated_film rated_desc
                  ltac:(vm_compute; reflexivity) ltac:(vm_compute; reflexivity))
           (lit "<p>Seen: ") 2 (half_char :: lit " and again</p>")).
  - reflexivity.
  - apply (bool_decide_unpack _). vm_compute. exact I.
  - reflexivity.
Defined.

(** C4: when the script of responses starts with pages that are successful
    and not empty and goes on with a page that failed or is empty, both
    [fetchWatchedFilms] and [fetchWatchlist] return the films of the pages
    before it, concatenated in order; they have requested pages 1 up to
    that page, and the later responses are still unused. *)
Theorem pagination_stops_at_end_page username good bad later log :
  Forall more_pages good → end_of_pages bad →
  (length good < 50 →
   fetchWatchedFilms username (World (good ++ bad :: later) log)
   = (Returned (concat (films_on <$> good)),
      World later
        (log ++ (page_request (films_url username) <$> seq 1 (S (length good)))))) ∧
  (length good < 20 →
   fetchWatchlist username (World (good ++ bad :: later) log)
   = (Returned (concat (films_on <$> good)),
      World later
        (log ++ (page_request (watchlist_url username) <$> seq 1 (S (length good)))))).
Proof.
  intros Hgood Hbad. split; intros Hlen.
  - unfold fetchWatchedFilms. rewrite page_loop_stop by (done || lia). done.
  - unfold fetchWatchlist. rewrite page_loop_stop by (done || lia). done.
Qed.

(** C4 at a script of two listing pages, an empty third page and a fourth
    page: the films of pages 1 and 2 come back, pages 1 to 3 were
    requested, and the fourth response is still pending. *)
Lemma pagination_stops_at_end_page_witness :
  Forall more_pages [Response true (listing_page "heat" "Heat");
                     Response true (listing_page "ran" "Ran")] ∧
  end_of_pages (Response true (lit "<html></html>")) ∧
  fetchWatchedFilms (lit "alice")
    (World [Response true (listing_page "heat" "Heat");
            Response true (listing_page "ran" "Ran");
            Response true (lit "<html></html>");
            Response true (listing_page "jaws" "Jaws")] [])
  = (Returned [listing_record "heat" "Heat"; listing_record "ran" "Ran"],
     World [Response true (listing_page "jaws" "Jaws")]
       (page_request (films_url (lit "alice")) <$> [1; 2; 3])).
Proof.
  split_and!;
    [repeat constructor; vm_compute; discriminate
    |right; vm_compute; reflexivity|].
  apply (proj1 (pagination_stops_at_end_page (lit "alice")
           [Response true (listing_page "heat" "Heat");
            Response true (listing_page "ran" "Ran")]
           (Response true (lit "<html></html>"))
           [Response true (listing_page "jaws" "Jaws")] []
           ltac:(repeat constructor; vm_compute; discriminate)
           ltac:(right; vm_compute; reflexivity))).
  vm_compute. lia.
Defined.

(** C5: whatever the responses, [fetchWatchlist] requests pages 1 to [n] for
    some [n ≤ 20] and [fetchWatchedFilms] pages 1 to [n] for some [n ≤ 50],
    each page once and in order; the request for page 21 (for page 51) is
    not among them, and both calls end. *)
Theorem page_ceilings username w :
  (∃ n, n ≤ 20 ∧
     requests (fetchWatchlist username w).2
     = requests w ++ (page_request (watchlist_url username) <$> seq 1 n) ∧
     page_request (watchlist_url username) 21
       ∉ (page_request (watchlist_url username) <$> seq 1 n)) ∧
  (∃ n, n ≤ 50 ∧
     requests (fetchWatchedFilms username w).2
     = requests w ++ (page_request (films_url username) <$> seq 1 n) ∧
     page_request (films_url username) 51
       ∉ (page_request (films_url username) <$> seq 1 n)) ∧
  (fetchWatchlist username w).1 ≠ Diverged ∧
  (fetchWatchedFilms username w).1 ≠ Diverged.
Proof.
  split_and!.
  - destruct (page_loop_requests 20 (watchlist_url username) 21 1 [] w)
      as (n & Hn & Hreq).
    exists n. split_and!; [lia|done|].
    intros (p & Hp & Hin)%list_elem_of_fmap.
    apply (f_equal req_url), watchlist_url_inj in Hp as <-.
    apply elem_of_seq in Hin. lia.
  - destruct (page_loop_requests 50 (films_url username) 51 1 [] w)
      as (n & Hn & Hreq).
    exists n. split_and!; [lia|done|].
    intros (p & Hp & Hin)%list_elem_of_fmap.
    apply (f_equal req_url), films_url_inj in Hp as <-.
    apply elem_of_seq in Hin. lia.
  - apply page_loop_terminates. lia.
  - apply page_loop_terminates. lia.
Qed.

(** C6, as the specification states it, fails: the title [Foo,1994] does not
    end in a comma, a space and four digits, so the specification keeps it
    whole; the code splits it. *)
Lemma split_without_space :
  spec_title_year (lit "Foo,1994") = (Str (lit "Foo,1994"), Null) ∧
  feed_item (Str (lit "<title>Foo,1994</title>"))
  = Returned (Some (dated_film "Foo" "1994")).
Proof. split; vm_compute; reflexivity. Qed.

(** C6, amended: a feed title that ends in a comma, any run of white space
    (none too) and exactly four digits, with at least one character before
    that comma, gives the text before the comma as title and the digits as
    year; every other feed title is the title as a whole, and the year is
    absent.  The white space and the digits hold no comma, so only the last
    comma of a title can split it. *)
Theorem title_year_split_at_end item film fullTitle :
  feed_item (Str item) = Returned (Some film) →
  feed_full_title item = Some fullTitle →
  (∀ text ws d, splits_as fullTitle text ws d →
                title film = Str text ∧ year film = Str d) ∧
  ((∀ text ws d, ¬ splits_as fullTitle text ws d) →
   title film = Str fullTitle ∧ year film = Null).
Proof.
  intros Hitem Hft. split.
  - intros text ws d. by apply (feed_title_split item).
  - intros Hno. rewrite feed_item_eq in Hitem. injection Hitem as Hf.
    apply item_film_Some in Hf as (ft' & Hft' & Ht & Hy & _).
    rewrite Hft in Hft'. injection Hft' as <-.
    by rewrite Ht, Hy, (title_year_whole _ Hno).
Qed.

(** C6 at a title with a comma before the one that splits it. *)
Lemma title_year_split_at_end_witness :
  feed_item (Str (lit "<title>Crouching Tiger, Hidden Dragon, 2000</title>"))
  = Returned (Some (dated_film "Crouching Tiger, Hidden Dragon" "2000")) ∧
  feed_full_title (lit "<title>Crouching Tiger, Hidden Dragon, 2000</title>")
  = Some (lit "Crouching Tiger, Hidden Dragon, 2000") ∧
  splits_as (lit "Crouching Tiger, Hidden Dragon, 2000")
    (lit "Crouching Tiger, Hidden Dragon") (lit " ") (lit "2000") ∧
  title (dated_film "Crouching Tiger, Hidden Dragon" "2000")
  = Str (lit "Crouching Tiger, Hidden Dragon") ∧
  year (dated_film "Crouching Tiger, Hidden Dragon" "2000") = Str (lit "2000").
Proof.
  split_and!; [vm_compute; reflexivity..| | |].
  { unfold splits_as. split_and!; [reflexivity|discriminate|reflexivity..]. }
  all: apply (proj1 (title_year_split_at_end
                  (lit "<title>Crouching Tiger, Hidden Dragon, 2000</title>")
                  (dated_film "Crouching Tiger, Hidden Dragon" "2000")
                  (lit "Crouching Tiger, Hidden Dragon, 2000")
                  ltac:(vm_compute; reflexivity) ltac:(vm_compute; reflexivity))
           (lit "Crouching Tiger, Hidden Dragon") (lit " ") (lit "2000"));
    unfold splits_as; split_and!; (reflexivity || discriminate).
Defined.

(** C7: [decodeHtmlEntities] is the decoder of the specification, which
    has its own table of the five entities: at every string it gives what
    that decoder gives; a string in which none of the five entities occurs
    is returned unchanged; the five entities in a row decode to apostrophe,
    ampersand, less-than, greater-than and double quote; and in the example
    [&eacute;] stays while [&amp;] becomes [&]. *)
Theorem entity_decoder_refines_spec :
  (∀ s, decodeHtmlEntities (Str s) = Returned (Str (decoder_of_spec 0 s))) ∧
  (∀ s, Forall (λ e, includes s e.1 = false) spec_entities →
        decodeHtmlEntities (Str s) = Returned (Str s)) ∧
  decodeHtmlEntities (Str (lit "&#039;&amp;&lt;&gt;&quot;"))
  = Returned (Str (lit "'&<>" ++ [quote_char])) ∧
  decodeHtmlEntities (Str (lit "Am&eacute;lie &amp; Friends"))
  = Returned (Str (lit "Am&eacute;lie & Friends")).
Proof.
  split_and!.
  - intros s. by rewrite decodeHtmlEntities_spec, decode_spec_of_spec.
  - intros s Hno. rewrite decodeHtmlEntities_spec.
    rewrite decode_spec_no_entity; [done|]. by apply spec_entities_absent.
  - vm_compute. reflexivity.
  - vm_compute. reflexivity.
Qed.

(** C8, as the specification states it, fails: each of these three feeds
    has one item with the title and the link of the example and a
    description that holds five stars and the date and no [Rewatched]; a
    run of six stars gives a rating of six stars, a star earlier in the
    description gives a rating of one star, and a description that is not
    in a CDATA section gives neither rating nor watch date. *)
Lemma matrix_feed_other_records :
  parseFeed (matrix_with
               (lit "<description><![CDATA[" ++ replicate 6 star_char
                ++ lit " Watched on Monday June 10, 2024]]></description>"))
  = Returned [matrix_record (Str (replicate 6 star_char))
                (Str (lit "June 10, 2024"))] ∧
  parseFeed (matrix_with
               (lit "<description><![CDATA[Liked " ++ [star_char] ++ lit ": "
                ++ replicate 5 star_char
                ++ lit " Watched on Monday June 10, 2024]]></description>"))
  = Returned [matrix_record (Str [star_char]) (Str (lit "June 10, 2024"))] ∧
  parseFeed (matrix_with
               (lit "<description>" ++ replicate 5 star_char
                ++ lit " Watched on Monday June 10, 2024</description>"))
  = Returned [matrix_record Null Null].
Proof. split_and!; vm_compute; reflexivity. Qed.

(** C8, amended: a feed document with one item (no [<item>] before it or
    after it, no [</item>] inside it) whose first title element holds
    [The Matrix, 1999], whose first link element holds
    [https://x/the-matrix/], and whose first CDATA description has a run
    of exactly five stars as its first star run, with no half glyph after
    it, has [Watched on Monday June 10, 2024] at its first [Watched on],
    and does not hold [Rewatched], gives exactly the record of the example,
    also through [fetchRecentActivity]. *)
Theorem matrix_feed_example before item after :
  includes before (lit "<item>") = false →
  includes item (lit "</item>") = false →
  includes after (lit "<item>") = false →
  matrix_item item →
  parseFeed (before ++ lit "<item>" ++ item ++ lit "</item>" ++ after)
  = Returned [matrix_film] ∧
  ∀ username status later log,
    (fetchRecentActivity username
       (World (Response status
                 (before ++ lit "<item>" ++ item ++ lit "</item>" ++ after)
               :: later) log)).1
    = Returned [matrix_film].
Proof.
  intros Hb Hi Ha Hitem.
  assert (parseFeed (before ++ lit "<item>" ++ item ++ lit "</item>" ++ after)
          = Returned [matrix_film]) as Hp.
  { rewrite parseFeed_eq, feed_items_single by done.
    cbn [omap list_omap]. by rewrite item_film_matrix. }
  split; [done|]. intros username status later log. exact Hp.
Qed.

(** C8 at the two feeds of the example, with the title plain and in a
    CDATA section. *)
Lemma matrix_feed_example_witness :
  parseFeed matrix_feed = Returned [matrix_film] ∧
  parseFeed matrix_feed_cdata = Returned [matrix_film].
Proof.
  split.
  - change matrix_feed
      with (lit "<rss><channel>" ++ lit "<item>"
            ++ (lit "<title>The Matrix, 1999</title>"
                ++ lit "<link>https://x/the-matrix/</link><description><![CDATA[<p>"
                ++ replicate 5 star_char
                ++ lit "</p><p>Watched on Monday June 10, 2024.</p>]]></description>")
            ++ lit "</item>" ++ lit "</channel></rss>").
    refine (proj1 (matrix_feed_example
              (lit "<rss><channel>")
              (lit "<title>The Matrix, 1999</title>"
               ++ lit "<link>https://x/the-matrix/</link><description><![CDATA[<p>"
               ++ replicate 5 star_char
               ++ lit "</p><p>Watched on Monday June 10, 2024.</p>]]></description>")
              (lit "</channel></rss>") _ _ _ _)); [vm_compute; reflexivity..|].
    split_and!.
    + right. split; [|vm_compute; reflexivity].
      exists [], (lit "<link>https://x/the-matrix/</link><description><![CDATA[<p>"
                  ++ replicate 5 star_char
                  ++ lit "</p><p>Watched on Monday June 10, 2024.</p>]]></description>").
      split_and!; vm_compute; reflexivity.
    + exists (lit "<title>The Matrix, 1999</title>"),
             (lit "<description><![CDATA[<p>" ++ replicate 5 star_char
              ++ lit "</p><p>Watched on Monday June 10, 2024.</p>]]></description>").
      split_and!; vm_compute; reflexivity.
    + exists (lit "<p>" ++ replicate 5 star_char
              ++ lit "</p><p>Watched on Monday June 10, 2024.</p>").
      split; [|split_and!].
      * exists (lit "<title>The Matrix, 1999</title>"
                ++ lit "<link>https://x/the-matrix/</link>"), [].
        split_and!; vm_compute; reflexivity.
      * exists (lit "<p>"), (lit "</p><p>Watched on Monday June 10, 2024.</p>").
        split_and!; try (vm_compute; reflexivity).
        apply (bool_decide_unpack _). vm_compute. exact I.
      * exists (lit "<p>" ++ replicate 5 star_char ++ lit "</p><p>"),
               (lit ".</p>").
        split; vm_compute; reflexivity.
      * vm_compute. reflexivity.
  - change matrix_feed_cdata
      with ([] ++ lit "<item>"
            ++ (lit "<title><![CDATA[The Matrix, 1999]]></title> "
                ++ lit "<link>https://x/the-matrix/</link> <description><![CDATA["
                ++ replicate 5 star_char
                ++ lit " Watched on Monday June 10, 2024]]></description>")
            ++ lit "</item>" ++ []).
    refine (proj1 (matrix_feed_example
              []
              (lit "<title><![CDATA[The Matrix, 1999]]></title> "
               ++ lit "<link>https://x/the-matrix/</link> <description><![CDATA["
               ++ replicate 5 star_char
               ++ lit " Watched on Monday June 10, 2024]]></description>")
              [] _ _ _ _)); [vm_compute; reflexivity..|].
    split_and!.
    + left.
      exists [], (lit " <link>https://x/the-matrix/</link> <description><![CDATA["
                  ++ replicate 5 star_char
                  ++ lit " Watched on Monday June 10, 2024]]></description>").
      split_and!; vm_compute; reflexivity.
    + exists (lit "<title><![CDATA[The Matrix, 1999]]></title> "),
             (lit " <description><![CDATA[" ++ replicate 5 star_char
              ++ lit " Watched on Monday June 10, 2024]]></description>").
      split_and!; vm_compute; reflexivity.
    + exists (replicate 5 star_char ++ lit " Watched on Monday June 10, 2024").
      split; [|split_and!].
      * exists (lit "<title><![CDATA[The Matrix, 1999]]></title> "
                ++ lit "<link>https://x/the-matrix/</link> "), [].
        split_and!; vm_compute; reflexivity.
      * exists [], (lit " Watched on Monday June 10, 2024").
        split_and!; try (vm_compute; reflexivity).
        apply not_elem_of_nil.
      * exists (replicate 5 star_char ++ lit " "), [].
        split; vm_compute; reflexivity.
      * vm_compute. reflexivity.
Defined.

(** C9: on every input the feed parser returns, without an exception: the
    result holds, in document order, the records of the items of the
    document, one for each item with a title; an item in which neither
    title pattern matches has no record. *)
Theorem feed_parser_total_and_skips xml :
  parseFeed xml = Returned (omap item_film (feed_items xml)) ∧
  (∀ item, feed_item (Str item) = Returned (item_film item)) ∧
  (∀ item, regexp_exec titleCdataRegex item 0 = None →
           regexp_exec titlePlainRegex item 0 = None →
           item_film item = None).
Proof.
  split_and!; [apply parseFeed_eq|apply feed_item_eq|].
  intros item H1 H2. unfold item_film, feed_full_title. by rewrite H1, H2.
Qed.

(** C9 at a document of two items, the first without a title. *)
Lemma feed_parser_total_and_skips_witness :
  parseFeed two_items = Returned [plain_film "Ran"]
  ∧ item_film (lit "<link>https://x/untitled/</link>") = None.
Proof.
  split.
  - rewrite (proj1 (feed_parser_total_and_skips two_items)).
    vm_compute. reflexivity.
  - apply (proj2 (proj2 (feed_parser_total_and_skips two_items)));
      vm_compute; reflexivity.
Defined.

(** C10: a feed title made of a non-empty text, a comma, any run of white
    space (none in particular) and four digits is split into that text and
    the digits. *)
Theorem split_any_whitespace_after_comma item film text ws d :
  feed_item (Str item) = Returned (Some film) →
  feed_full_title item = Some (text ++ lit "," ++ ws ++ d) →
  text ≠ [] → forallb is_space ws = true →
  length d = 4 → forallb is_digit d = true →
  title film = Str text ∧ year film = Str d.
Proof.
  intros Hitem Hft Hne Hws Hlen Hd.
  apply (feed_title_split item film _ text ws d Hitem Hft).
  by split_and!.
Qed.

(** C10 at the title [Foo,1994], with no white space after the comma. *)
Lemma split_any_whitespace_after_comma_witness :
  feed_item (Str (lit "<title>Foo,1994</title>"))
  = Returned (Some (dated_film "Foo" "1994")) ∧
  feed_full_title (lit "<title>Foo,1994</title>")
  = Some (lit "Foo" ++ lit "," ++ [] ++ lit "1994") ∧
  title (dated_film "Foo" "1994") = Str (lit "Foo") ∧
  year (dated_film "Foo" "1994") = Str (lit "1994").
Proof.
  split_and!; [vm_compute; reflexivity..| |].
  all: apply (split_any_whitespace_after_comma (lit "<title>Foo,1994</title>")
           (dated_film "Foo" "1994") (lit "Foo") [] (lit "1994"));
    try (vm_compute; reflexivity); discriminate.
Defined.


(** * Further properties of the code *)

(** X1: the rewatch flag of a record is true exactly when the description
    of its item holds the text [Rewatched] somewhere. *)
Theorem rewatch_iff_description_mentions_it item film desc :
  feed_item (Str item) = Returned (Some film) →
  feed_desc item = Some desc →
  rewatch film = true ↔ ∃ pre post, desc = pre ++ lit "Rewatched" ++ post.
Proof.
  rewrite feed_item_eq. intros [= Hf] Hd.
  apply item_film_fields in Hf as (ft & _ & _ & _ & _ & _ & _ & Hr).
  rewrite Hd in Hr. cbn [from_option] in Hr. rewrite Hr. apply includes_spec.
Qed.

(** X1 at an item whose description starts with a tag and then the word. *)
Lemma rewatch_iff_description_mentions_it_witness :
  feed_item (Str rewatched_item) = Returned (Some rewatched_film) ∧
  feed_desc rewatched_item = Some rewatched_desc ∧
  (rewatch rewatched_film = true ↔
   ∃ pre post, rewatched_desc = pre ++ lit "Rewatched" ++ post).
Proof.
  split_and!; [vm_compute; reflexivity..|].
  apply (rewatch_iff_description_mentions_it rewatched_item rewatched_film
           rewatched_desc); vm_compute; reflexivity.
Defined.

(** X2: an item with a title whose text has no description in a CDATA
    section (the opening or the closing marker is missing) gives a record
    with no rating, no watch date and the rewatch flag off, whatever else
    the item holds. *)
Theorem no_cdata_description_gives_defaults item film :
  feed_item (Str item) = Returned (Some film) →
  includes item (lit "<description><![CDATA[") = false ∨
  includes item (lit "]]></description>") = false →
  rating film = Null ∧ watchDate film = Null ∧ rewatch film = false.
Proof.
  rewrite feed_item_eq. intros [= Hf] Hno.
  apply item_film_fields in Hf as (ft & _ & _ & _ & Hr & Hw & _ & Hre).
  rewrite (feed_desc_none _ Hno) in *. done.
Qed.

(** X2 at an item whose description is plain text with stars and the word
    [Rewatched] in it. *)
Lemma no_cdata_description_gives_defaults_witness :
  feed_item (Str plain_desc_item) = Returned (Some (plain_film "Ran")) ∧
  includes plain_desc_item (lit "<description><![CDATA[") = false ∧
  rating (plain_film "Ran") = Null ∧ watchDate (plain_film "Ran") = Null ∧
  rewatch (plain_film "Ran") = false.
Proof.
  split_and!; [vm_compute; reflexivity..| | |].
  all: apply (no_cdata_description_gives_defaults plain_desc_item
                (plain_film "Ran")); [vm_compute; reflexivity|left].
  all: vm_compute; reflexivity.
Defined.

(** X3: every record of the feed parser is the record of an item body that
    stands in the document between [<item>] and [</item>] and does not
    itself contain [</item>]: an item ends at the first closing marker. *)
Theorem feed_records_come_from_items xml :
  ∃ films, parseFeed xml = Returned films ∧
    Forall (λ f, ∃ item,
              feed_item (Str item) = Returned (Some f) ∧
              includes item (lit "</item>") = false ∧
              includes xml (lit "<item>" ++ item ++ lit "</item>") = true)
      films.
Proof.
  eexists. split; [apply parseFeed_eq|].
  apply list.Forall_forall. intros f (item & Hin & Hf)%list_elem_of_omap.
  apply feed_items_delimited in Hin as [? ?].
  exists item. by rewrite feed_item_eq, Hf.
Qed.

(** X4: a document in which [<item>] or [</item>] does not occur gives the
    empty sequence; an item that is opened and never closed is not read. *)
Theorem no_item_markers_no_records xml :
  includes xml (lit "<item>") = false ∨ includes xml (lit "</item>") = false →
  parseFeed xml = Returned [].
Proof.
  intros Hno. unfold parseFeed. cbn [feed_loop].
  destruct (regexp_exec itemRegex xml 0) as [mt|] eqn:E; [|done].
  apply regexp_exec_delimited_includes in E as [H1 H2]; [|reflexivity].
  destruct Hno; congruence.
Qed.

(** X4 at a feed whose only item is not closed. *)
Lemma no_item_markers_no_records_witness :
  includes unclosed_feed (lit "</item>") = false ∧
  parseFeed unclosed_feed = Returned [].
Proof.
  split; [vm_compute; reflexivity|].
  apply (no_item_markers_no_records unclosed_feed). right.
  vm_compute. reflexivity.
Defined.

(** X5: a page in which [data-target-link=], [<img] or [alt=] does not
    occur gives the empty sequence (and so ends a pagination). *)
Theorem no_listing_markers_no_records html :
  includes html (lit "data-target-link=") = false ∨
  includes html (lit "<img") = false ∨
  includes html (lit "alt=") = false →
  parseFilmsPage html = Returned [].
Proof.
  intros Hno. unfold parseFilmsPage. cbn [parseFilmsPage_loop].
  destruct (regexp_exec filmPattern html 0) as [mt|] eqn:E; [|done].
  apply regexp_exec_Some in E as (i & _ & E & _).
  apply filmPattern_markers in E as (H1 & H2 & H3).
  destruct Hno as [?|[?|?]]; congruence.
Qed.

(** X5 at a page with a film link and no image. *)
Lemma no_listing_markers_no_records_witness :
  includes imageless_page (lit "<img") = false ∧
  parseFilmsPage imageless_page = Returned [].
Proof.
  split; [vm_compute; reflexivity|].
  apply (no_listing_markers_no_records imageless_page). right. left.
  vm_compute. reflexivity.
Defined.

(** X6: the watch date of a record is absent when the description does not
    hold [Watched on]; when present it is a word, white space, digits, a
    comma, white space and four digits, and it stands in the description
    after [Watched on], white space, one word and white space. *)
Theorem watch_date_shape_and_origin item film desc :
  feed_item (Str item) = Returned (Some film) →
  feed_desc item = Some desc →
  (includes desc (lit "Watched on") = false → watchDate film = Null) ∧
  (watchDate film = Null ∨
   ∃ d s1 w s2,
     watchDate film = Str d ∧ date_shape d ∧
     s1 ≠ [] ∧ forallb is_space s1 = true ∧
     w ≠ [] ∧ forallb is_word w = true ∧
     s2 ≠ [] ∧ forallb is_space s2 = true ∧
     includes desc (lit "Watched on" ++ s1 ++ w ++ s2 ++ d) = true).
Proof.
  rewrite feed_item_eq. intros [= Hf] Hd.
  apply item_film_fields in Hf as (ft & _ & _ & _ & _ & Hw & _).
  rewrite Hd in Hw. cbn [from_option] in Hw. rewrite Hw. split.
  - apply watch_date_of_absent.
  - apply watch_date_of_shape.
Qed.

(** X6 at an item whose description has a rating and no watch date. *)
Lemma watch_date_shape_and_origin_witness :
  feed_item (Str rated_item) = Returned (Some rated_film) ∧
  feed_desc rated_item = Some rated_desc ∧
  includes rated_desc (lit "Watched on") = false ∧
  watchDate rated_film = Null.
Proof.
  split_and!; [vm_compute; reflexivity..|].
  apply (proj1 (watch_date_shape_and_origin rated_item rated_film rated_desc
                  ltac:(vm_compute; reflexivity) ltac:(vm_compute; reflexivity))).
  vm_compute. reflexivity.
Defined.

(** X7: every record of the feed parser is well formed: the title is a
    string without a line terminator; the year is null or four digits; the
    rating is null or stars with at most one half glyph after them; the
    watch date is null or has the shape of a date; the link is null or a
    string without a line terminator and without [</link>]. *)
Theorem feed_records_well_formed xml :
  ∃ films, parseFeed xml = Returned films ∧ Forall feed_record_ok films.
Proof.
  eexists. split; [apply parseFeed_eq|].
  apply list.Forall_forall. intros f (item & _ & Hf)%list_elem_of_omap.
  by apply item_film_ok in Hf.
Qed.

(** X8: every record of [parseFilmsPage] has year, rating and watch date
    null and the rewatch flag off, and its link is the site, [/film/], a
    non-empty slug without a double quote, and a slash. *)
Theorem listing_records_well_formed html :
  ∃ films, parseFilmsPage html = Returned films ∧
           Forall listing_record_ok films.
Proof.
  exists (page_films html). split; [apply parseFilmsPage_eq|].
  apply list.Forall_forall. intros f Hf. by apply page_films_ok in Hf.
Qed.

(** X9: [decodeHtmlEntities] never makes a string longer, and a string
    without [&] comes back unchanged. *)
Theorem decoder_never_lengthens s :
  ∃ out, decodeHtmlEntities (Str s) = Returned (Str out) ∧
         length out ≤ length s ∧ (ampersand ∉ s → out = s).
Proof.
  exists (decode_spec 0 s). split_and!.
  - apply decodeHtmlEntities_spec.
  - by apply (decode_spec_length (length s)).
  - intros Hno. by apply decode_spec_no_entity, no_ampersand_no_entity.
Qed.

(** X10: [decodeHtmlEntities] works in one pass from the left: an entity of
    the table in front of a string adds its character to the decoded
    string, and so does any character but [&]; what a replacement produces
    is not decoded again ([&amp;lt;] gives [&lt;]). *)
Theorem decoder_is_single_pass s :
  ∃ out, decodeHtmlEntities (Str s) = Returned (Str out) ∧
    (∀ key ch, (key, ch) ∈ entities →
       decodeHtmlEntities (Str (key ++ s)) = Returned (Str (ch ++ out))) ∧
    (∀ c, c ≠ ampersand →
       decodeHtmlEntities (Str (c :: s)) = Returned (Str (c :: out))) ∧
    decodeHtmlEntities (Str (lit "&amp;lt;")) = Returned (Str (lit "&lt;")).
Proof.
  exists (decode_spec 0 s). split_and!.
  - apply decodeHtmlEntities_spec.
  - intros key ch Hin. rewrite decodeHtmlEntities_spec.
    rewrite (decode_spec_entity _ key ch) by by apply entity_at_key.
    by rewrite drop_app_length.
  - intros c Hc. rewrite decodeHtmlEntities_spec.
    by rewrite decode_spec_plain by by apply entity_at_plain.
  - vm_compute. reflexivity.
Qed.

(** X11: when the first 50 (the first 20) responses are all successful
    pages with films, [fetchWatchedFilms] ([fetchWatchlist]) returns the
    films of exactly these pages, has made exactly 50 (20) requests, and
    leaves every later response unused. *)
Theorem pagination_stops_at_ceiling username good later log :
  Forall more_pages good →
  (length good = 50 →
   fetchWatchedFilms username (World (good ++ later) log)
   = (Returned (concat (films_on <$> good)),
      World later (log ++ (page_request (films_url username) <$> seq 1 50)))) ∧
  (length good = 20 →
   fetchWatchlist username (World (good ++ later) log)
   = (Returned (concat (films_on <$> good)),
      World later
        (log ++ (page_request (watchlist_url username) <$> seq 1 20)))).
Proof.
  intros Hgood. split; intros Hlen.
  - unfold fetchWatchedFilms. rewrite page_loop_full by (done || lia).
    by rewrite Hlen.
  - unfold fetchWatchlist. rewrite page_loop_full by (done || lia).
    by rewrite Hlen.
Qed.

(** X11 at a watchlist of 21 equal pages: the 21st is not asked for. *)
Lemma pagination_stops_at_ceiling_witness :
  Forall more_pages (replicate 20 (Response true (listing_page "ran" "Ran"))) ∧
  fetchWatchlist (lit "alice")
    (World (replicate 20 (Response true (listing_page "ran" "Ran"))
            ++ [Response true (listing_page "ran" "Ran")]) [])
  = (Returned (replicate 20 (listing_record "ran" "Ran")),
     World [Response true (listing_page "ran" "Ran")]
       (page_request (watchlist_url (lit "alice")) <$> seq 1 20)).
Proof.
  assert (Forall more_pages
            (replicate 20 (Response true (listing_page "ran" "Ran")))) as H.
  { apply Forall_replicate. split; [reflexivity|vm_compute; discriminate]. }
  split; [exact H|].
  rewrite (proj2 (pagination_stops_at_ceiling (lit "alice") _
                    [Response true (listing_page "ran" "Ran")] [] H)
             ltac:(reflexivity)).
  vm_compute. reflexivity.
Defined.

(** X12: when the fetch fails (rejects) after pages that were all
    successful and had films, and the ceiling is not reached, the call
    fails too: the films read so far are not returned. *)
Theorem pagination_fails_when_fetch_rejects username good log :
  Forall more_pages good →
  (length good < 50 →
   fetchWatchedFilms username (World good log)
   = (Threw,
      World [] (log ++ (page_request (films_url username)
                          <$> seq 1 (S (length good)))))) ∧
  (length good < 20 →
   fetchWatchlist username (World good log)
   = (Threw,
      World [] (log ++ (page_request (watchlist_url username)
                          <$> seq 1 (S (length good)))))).
Proof.
  intros Hgood. split; intros Hlen.
  - unfold fetchWatchedFilms. by rewrite page_loop_rejected by (done || lia).
  - unfold fetchWatchlist. by rewrite page_loop_rejected by (done || lia).
Qed.

(** X12 at a script of one page: the second fetch fails. *)
Lemma pagination_fails_when_fetch_rejects_witness :
  Forall more_pages [Response true (listing_page "ran" "Ran")] ∧
  fetchWatchedFilms (lit "alice")
    (World [Response true (listing_page "ran" "Ran")] [])
  = (Threw, World [] (page_request (films_url (lit "alice")) <$> [1; 2])).
Proof.
  assert (Forall more_pages [Response true (listing_page "ran" "Ran")]) as H.
  { repeat constructor. vm_compute. discriminate. }
  split; [exact H|].
  apply (proj1 (pagination_fails_when_fetch_rejects (lit "alice") _ [] H)).
  vm_compute. lia.
Defined.

